(** * disectChartData: the trailing window of a Chart.js label/data pair

    The function under study is the JavaScript

    <<
    function disectChartData(labels, data, length) {
      const endLabelSliceIdx = labels.length
      const endDataSliceIdx = data.length
      const startLabelIdx = Math.max(0, endLabelSliceIdx - length)
      const startDataIdx = Math.max(0, endDataSliceIdx - length)
      return {
        labels: labels.slice(startLabelIdx, endLabelSliceIdx),
        data: data.slice(startDataIdx, endDataSliceIdx),
      }
    }
    >>

    JavaScript arrays are objects handled by reference, and [slice]
    allocates a fresh array.  The embedding therefore threads a store of
    arrays through the code: an array value is a reference into the store,
    [slice] extends the store, and the function returns the pair of
    references of its result object together with the final store.

    The [length] argument and the indices are integer-valued numbers and
    are modelled in [Z].  Array lengths are below 2^32, so the indices of
    an interior window are exact; for a length of larger magnitude the
    rounded difference [s.length - length] stays on the same side of 0 and
    of [s.length], which is all the clamps look at. *)

From Stdlib Require Import QArith_base Ascii.
From stdpp Require Import base numbers list option strings gmap fin_maps.
From Equations Require Import Equations.

Open Scope Z_scope.

(** ** The store of arrays *)

(** References are positions in the store; allocation appends, so a
    reference never changes meaning once handed out. *)
Definition loc := nat.

(** The elements are never inspected by the code, so the element type is a
    parameter.  A sparse array is covered by taking [option] of the
    element type: [slice] keeps holes in place. *)
Definition heap (E : Type) := list (list E).

(** Computations read and extend the store; [None] is a computation stuck
    on a reference that designates no array. *)
Definition M (E A : Type) : Type := heap E → option (A * heap E).

Definition ret {E A} (a : A) : M E A := λ h, Some (a, h).

Definition bind {E A B} (m : M E A) (f : A → M E B) : M E B :=
  λ h, match m h with
       | Some (a, h') => f a h'
       | None => None
       end.

Notation "'let*' x ':=' m 'in' k" := (bind m (λ x, k))
  (at level 10, x name, m at level 100, k at level 200,
   format "'[v' 'let*'  x  ':='  m  'in' '/' k ']'").

(** The object literal [{ labels: ..., data: ... }] returned by the call. *)
Record ChartData := mkChartData { labels : loc; data : loc }.

Section Runtime.
Context {E : Type}.

(** [new Array], with the elements given. *)
Definition alloc (a : list E) : M E loc :=
  λ h, Some (length h, h ++ [a]).

(** Reading the whole array a reference designates. *)
Definition deref (l : loc) : M E (list E) :=
  λ h, match h !! l with
       | Some a => Some (a, h)
       | None => None
       end.

(** [arr.length] *)
Definition get_length (l : loc) : M E Z :=
  let* a := deref l in
  ret (Z.of_nat (length a)).

(** [Math.max(a, b)] on integer-valued numbers. *)
Definition Math_max (a b : Z) : Z := Z.max a b.

(** Array.prototype.slice, steps 3-6: a relative index, already an
    integer, is resolved against the array length.  A negative index
    counts from the end and is clamped at 0, any other index is clamped
    at the length. *)
Definition relative_index (len rel : Z) : Z :=
  if rel <? 0 then Z.max (len + rel) 0 else Z.min rel len.

(** Array.prototype.slice, the copy loop: [count] turns, each reading
    index [k] of [O] and appending the value to [A].  The loop only
    visits indices below the length of [O], so the branch for an absent
    index is never taken ([slice_copy_spec] below). *)
Fixpoint slice_copy (O : list E) (count : nat) (k : Z) (A : list E)
  : list E :=
  match count with
  | O => A
  | S count' =>
      match O !! Z.to_nat k with
      | Some kValue => slice_copy O count' (k + 1) (A ++ [kValue])
      | None => slice_copy O count' (k + 1) A
      end
  end.

(** [arr.slice(start, end)]: resolve both indices, count the elements in
    between, copy them into a new array, return its reference. *)
Definition slice (l : loc) (start end_ : Z) : M E loc :=
  let* O := deref l in
  let len := Z.of_nat (length O) in
  let k := relative_index len start in
  let final := relative_index len end_ in
  let count := Z.max (final - k) 0 in
  alloc (slice_copy O (Z.to_nat count) k []).

(** The function itself. *)
Definition disectChartData (labels data : loc) (length : Z)
  : M E ChartData :=
  let* endLabelSliceIdx := get_length labels in
  let* endDataSliceIdx := get_length data in
  let startLabelIdx := Math_max 0 (endLabelSliceIdx - length) in
  let startDataIdx := Math_max 0 (endDataSliceIdx - length) in
  let* labels' := slice labels startLabelIdx endLabelSliceIdx in
  let* data' := slice data startDataIdx endDataSliceIdx in
  ret (mkChartData labels' data').

(** The contents of the two arrays of the returned object, read in the
    store the call leaves behind. *)
Definition out_labels (h : heap E) (l d : loc) (length : Z)
  : option (list E) :=
  match disectChartData l d length h with
  | Some (r, h') => h' !! labels r
  | None => None
  end.

Definition out_data (h : heap E) (l d : loc) (length : Z)
  : option (list E) :=
  match disectChartData l d length h with
  | Some (r, h') => h' !! data r
  | None => None
  end.

(** Follows the spec's words: "the last [n] elements of [s], in the
    original order". *)
Definition last_n (n : Z) (s : list E) : list E :=
  reverse (take (Z.to_nat n) (reverse s)).

(** Closed form of what the code cuts: everything from the start index
    the code computes, [Math.max(0, s.length - n)], to the end. *)
Definition window (n : Z) (s : list E) : list E :=
  drop (Z.to_nat (Z.max 0 (Z.of_nat (length s) - n))) s.

End Runtime.

Arguments slice {E} l%_nat (start end_)%_Z.
Arguments disectChartData {E} (labels data)%_nat length%_Z.
Arguments out_labels {E} h (l d)%_nat length%_Z.
Arguments out_data {E} h (l d)%_nat length%_Z.

(** ** The values of the script *)

(** [Array<string | number | null>]; a number literal is kept as the
    fraction it denotes. *)
Inductive elem :=
  | Null
  | Str (s : string)
  | Num (q : Q).

(** The execution code of the file: build the two arrays, call the
    function with length 2, and read the two result arrays (what
    [JSON.stringify] walks over). *)
Definition script : M elem (list elem * list elem) :=
  let* myArrayLabels := alloc [Str "testing"; Str "array"; Str "indexes"] in
  let* myArrayData :=
    alloc [Num (10 # 10)%Q; Num (11 # 10)%Q; Num (12 # 10)%Q] in
  let* r := disectChartData myArrayLabels myArrayData 2 in
  let* ls := deref (labels r) in
  let* ds := deref (data r) in
  ret (ls, ds).

(** Sample stores: labels at reference 0, data at reference 1. *)
Definition Int (z : Z) : elem := Num (z # 1)%Q.

Definition abc : list elem := [Str "a"; Str "b"; Str "c"].

Definition store_aligned : heap elem := [abc; [Int 1; Int 2; Int 3]].

Definition store_ragged : heap elem := [abc; [Int 1; Int 2]].

Definition store_empty : heap elem := [[]; []].

(** A store in which labels and data are one and the same array. *)
Definition store_shared : heap elem := [abc].

(** ** The slicing helper of the article

    <<
    function getSlice(start, end, arr) {
        return arr.slice(start, end)
    }
    >> *)
Definition getSlice {E} (start end_ : Z) (arr : loc) : M E loc :=
  slice arr start end_.

Arguments getSlice {E} (start end_)%_Z arr%_nat.

(** The contents of the array [getSlice] returns, read in the store the
    call leaves behind. *)
Definition out_getSlice {E} (h : heap E) (start end_ : Z) (arr : loc)
  : option (list E) :=
  match getSlice start end_ arr h with
  | Some (r, h') => h' !! r
  | None => None
  end.

Arguments out_getSlice {E} h (start end_)%_Z arr%_nat.

(** ** The digits of an integer (Rust)

    <<
    pub fn get_digits_arithmetic(mut n: u32) -> Vec<u32> {
        let mut digits = Vec::new();
        while n > 0 {
            digits.push(n % 10);
            n /= 10;
        }
        digits.reverse();
        digits
    }
    >>

    A [u32] is an integer in [0, 2^32); remainder and quotient by 10
    never leave that range, so no wrap-around needs writing out. *)

(** The [while] loop, on the loop state [(n, digits)]. *)
Equations? digits_while (n : Z) (digits : list Z) : list Z
  by wf (Z.to_nat n) lt :=
  digits_while n digits with decide (n > 0) := {
    | left _ => digits_while (n / 10) (digits ++ [n mod 10])
    | right _ => digits }.
Proof.
  assert (n / 10 < n) by (apply Z.div_lt; lia).
  assert (0 ≤ n / 10) by (apply Z.div_pos; lia). lia.
Qed.

Definition get_digits_arithmetic (n : Z) : list Z :=
  reverse (digits_while n []).

(** <<
    pub fn get_digits_idiomatic(mut n: u32) -> Vec<u32> {
        std::iter::from_fn(|| {
            if n > 0 {
                let digit = n % 10;
                n /= 10;
                Some(digit)
            } else {
                None
            }
        })
        .collect::<Vec<_>>()
        .into_iter()
        .rev()
        .collect()
    }
    >>

    The closure owns [n]: one call returns the item and the new [n]. *)
Definition digit_closure (n : Z) : option Z * Z :=
  if decide (n > 0) then (Some (n mod 10), n / 10) else (None, n).

Definition inspect {A} (a : A) : {b | a = b} := exist _ a eq_refl.

(** [from_fn(closure).collect::<Vec<_>>()]: call the closure, push each
    item, stop at the first [None]. *)
Equations? collect_from_fn (n : Z) (v : list Z) : list Z
  by wf (Z.to_nat n) lt :=
  collect_from_fn n v with inspect (digit_closure n) := {
    | exist _ (Some digit, n') Hcall =>
        collect_from_fn n' (v ++ [digit])
    | exist _ (None, _) Hcall => v }.
Proof.
  unfold digit_closure in Hcall. destruct (decide (n > 0)); [|done].
  injection Hcall as _ <-.
  assert (n / 10 < n) by (apply Z.div_lt; lia).
  assert (0 ≤ n / 10) by (apply Z.div_pos; lia). lia.
Qed.

Definition get_digits_idiomatic (n : Z) : list Z :=
  reverse (collect_from_fn n []).

(** The number a list of decimal digits writes, most significant digit
    first. *)
Definition from_digits (digits : list Z) : Z :=
  foldl (λ acc d, acc * 10 + d) 0 digits.

Definition is_digit (d : Z) : Prop := 0 ≤ d ≤ 9.

(** ** Fibonacci numbers in [u32] (Rust)

    <<
    pub fn fibonacci(n: u32) -> u32 {
        match n {
            0 => 0,
            1 => 1,
            _ => fibonacci(n - 1) + fibonacci(n - 2),
        }
    }
    >>

    What [+] does on overflow depends on the build: with overflow checks
    (the test profile) it panics, without them (the release profile the
    WebAssembly package is built with) it wraps around. *)
Inductive profile := Debug | Release.

(** [a + b] on [u32]; [None] is the panic. *)
Definition add_u32 (p : profile) (a b : Z) : option Z :=
  if decide (a + b < 2 ^ 32) then Some (a + b)
  else match p with
       | Debug => None
       | Release => Some ((a + b) mod 2 ^ 32)
       end.

Fixpoint fibonacci (p : profile) (n : nat) : option Z :=
  match n with
  | 0%nat => Some 0
  | 1%nat => Some 1
  | S (S n2 as n1) =>
      match fibonacci p n1 with
      | Some a =>
          match fibonacci p n2 with
          | Some b => add_u32 p a b
          | None => None
          end
      | None => None
      end
  end.

(** The Fibonacci numbers in unbounded integers, for comparison. *)
Fixpoint fib (n : nat) : Z :=
  match n with
  | 0%nat => 0
  | 1%nat => 1
  | S (S n2 as n1) => fib n1 + fib n2
  end.

(** Two consecutive Fibonacci numbers at once, in a linear number of
    additions; used to evaluate [fib] at 47 and 48. *)
Fixpoint fib_pair (n : nat) : Z * Z :=
  match n with
  | 0%nat => (0, 1)
  | S k => let '(a, b) := fib_pair k in (b, a + b)
  end.

(** ** Merging dictionaries without None (Python)

    <<
    def merge_without_none(lhs: dict, rhs: dict) -> dict:
        return {key: val for key, val in lhs.items() if val is not None} | \
        {key: val for key, val in rhs.items() if val is not None}
    >>

    A dictionary is a finite map from keys to objects, an object being
    [None] or some other value.  Equality of finite maps is Python's [==]
    on dictionaries, which does not look at insertion order. *)
Inductive pyobj (V : Type) :=
  | PyNone
  | PyVal (v : V).

Arguments PyNone {V}.
Arguments PyVal {V} v.

(** [val is not None] *)
Definition is_not_None {V} (val : pyobj V) : Prop :=
  match val with
  | PyNone => False
  | PyVal _ => True
  end.

#[global] Instance is_not_None_dec {V} (val : pyobj V) :
  Decision (is_not_None val).
Proof. destruct val; simpl; apply _. Defined.

Section PyDict.
Context `{Countable K} {V : Type}.

(** [{key: val for key, val in d.items() if val is not None}] *)
Definition drop_none (d : gmap K (pyobj V)) : gmap K (pyobj V) :=
  filter (λ kv, is_not_None kv.2) d.

(** [lhs | rhs] (PEP 584): the keys of both operands, with the right
    operand's value where both have the key. *)
Definition dict_or (lhs rhs : gmap K (pyobj V)) : gmap K (pyobj V) :=
  rhs ∪ lhs.

Definition merge_without_none (lhs rhs : gmap K (pyobj V))
  : gmap K (pyobj V) :=
  dict_or (drop_none lhs) (drop_none rhs).

(** [d.get(key)]: the value, or [None] for a missing key. *)
Definition dict_get (d : gmap K (pyobj V)) (key : K) : pyobj V :=
  default PyNone (d !! key).

End PyDict.

(** ** Validating an input field (JavaScript)

    <<
    function validateInput(input) {
        const regex = /^[A-Za-z0-9]*$/;
        if (!regex.test(input)) {
            throw new Error("This input field cannot contain anything other than lowercase, uppercase or numerical characters.");
        }
        return "Valid input";
    }
    >>

    The regular expression is kept as syntax and run by a backtracking
    matcher.  A subject is a string of bytes: a character outside ASCII
    is several bytes above 127, none of them in a class of the pattern, as
    none of its UTF-16 code units is. *)
Module Regex.

Inductive regex :=
  | Bol
  | Eol
  | Class (ranges : list (ascii * ascii))
  | Star (r : regex)
  | Seq (r1 r2 : regex).

(** A position in the subject: the number of characters before it and the
    characters from it on. *)
Definition position : Type := nat * string.

Definition in_range (c : ascii) (range : ascii * ascii) : bool :=
  (nat_of_ascii range.1 <=? nat_of_ascii c)%nat &&
  (nat_of_ascii c <=? nat_of_ascii range.2)%nat.

Definition in_class (ranges : list (ascii * ascii)) (c : ascii) : bool :=
  existsb (in_range c) ranges.

(** The positions at which a match of [r*] started at [p] can end, [step]
    giving the ends of one match of [r]: no repetition, or one repetition
    that consumes something, followed by more. *)
Fixpoint star_ends (step : position → list position) (fuel : nat)
    (p : position) : list position :=
  p :: match fuel with
       | O => []
       | S fuel' =>
           flat_map (λ q, if decide (p.1 < q.1)%nat
                          then star_ends step fuel' q else [])
                    (step p)
       end.

(** The positions at which a match of [r] started at [p] can end.  [^]
    holds before the first character only and [$] after the last one only
    (no [m] flag). *)
Fixpoint ends (r : regex) (p : position) : list position :=
  match r with
  | Bol => if decide (p.1 = 0%nat) then [p] else []
  | Eol => match p.2 with
           | EmptyString => [p]
           | String _ _ => []
           end
  | Class ranges =>
      match p.2 with
      | String c rest =>
          if in_class ranges c then [(S p.1, rest)] else []
      | EmptyString => []
      end
  | Star r => star_ends (ends r) (String.length p.2) p
  | Seq r1 r2 => flat_map (ends r2) (ends r1 p)
  end.

(** Every position of the subject, first to last. *)
Fixpoint starts (n : nat) (s : string) : list position :=
  (n, s) :: match s with
            | EmptyString => []
            | String _ rest => starts (S n) rest
            end.

Definition matches_at (r : regex) (p : position) : bool :=
  match ends r p with
  | [] => false
  | _ :: _ => true
  end.

(** [regex.test(input)]: is there a match starting at some position? *)
Definition test (r : regex) (input : string) : bool :=
  existsb (matches_at r) (starts 0 input).

End Regex.

(** What a call does: return a value, or throw [new Error(message)]. *)
Inductive js_result (A : Type) :=
  | Return (a : A)
  | Throw (message : string).

Arguments Return {A} a.
Arguments Throw {A} message.

Definition validateInput (input : string) : js_result string :=
  let regex :=
    Regex.Seq Regex.Bol
      (Regex.Seq
         (Regex.Star
            (Regex.Class [("A", "Z"); ("a", "z"); ("0", "9")]%char))
         Regex.Eol) in
  if negb (Regex.test regex input)
  then Throw "This input field cannot contain anything other than lowercase, uppercase or numerical characters."
  else Return "Valid input".

(** The characters of a string, as byte values. *)
Fixpoint char_codes (s : string) : list nat :=
  match s with
  | EmptyString => []
  | String c rest => nat_of_ascii c :: char_codes rest
  end.

(** An ASCII letter or digit, by its code. *)
Definition alnum_code (n : nat) : Prop :=
  (65 ≤ n ≤ 90 ∨ 97 ≤ n ≤ 122 ∨ 48 ≤ n ≤ 57)%nat.

(** ** The minimalist logger (TypeScript)

    <<
    export const logger = {
      debug: debugMessage, log: logMessage,
      error: errorMessage, warn: warnMessage,
    };
    function logMessage(message: string): void {
      if (process.env.NODE_ENV !== "production") {
        console.log(`[LOG] ${new Date().toISOString()}: ${message}`);
      }
    }
    >>
    and the same for [errorMessage], [warnMessage] and [debugMessage].

    The console is the list of lines written so far, each with the
    console method that wrote it.  The environment variable may be unset.
    [new Date().toISOString()] is the reading [now] of the clock at the
    call. *)
Module Logger.

Inductive console_method := Cdebug | Clog | Cerror | Cwarn.

Definition console : Type := list (console_method * string).

Definition logMessage (NODE_ENV : option string) (now message : string)
    (out : console) : console :=
  if decide (NODE_ENV ≠ Some "production")
  then out ++ [(Clog, "[LOG] " +:+ now +:+ ": " +:+ message)]
  else out.

Definition errorMessage (NODE_ENV : option string) (now message : string)
    (out : console) : console :=
  if decide (NODE_ENV ≠ Some "production")
  then out ++ [(Cerror, "[ERROR] " +:+ now +:+ ": " +:+ message)]
  else out.

Definition warnMessage (NODE_ENV : option string) (now message : string)
    (out : console) : console :=
  if decide (NODE_ENV ≠ Some "production")
  then out ++ [(Cwarn, "[WARN] " +:+ now +:+ ": " +:+ message)]
  else out.

Definition debugMessage (NODE_ENV : option string) (now message : string)
    (out : console) : console :=
  if decide (NODE_ENV ≠ Some "production")
  then out ++ [(Cdebug, "[DEBUG] " +:+ now +:+ ": " +:+ message)]
  else out.

(** The keys of the [logger] object. *)
Inductive key := debug | log | error | warn.

Definition logger (k : key)
  : option string → string → string → console → console :=
  match k with
  | debug => debugMessage
  | log => logMessage
  | error => errorMessage
  | warn => warnMessage
  end.

(** One use of the logger: [logger.k(message)] at clock reading [now]. *)
Record call := mkCall { method : key; now : string; message : string }.

(** A program's uses of the logger, in order. *)
Definition run (NODE_ENV : option string) (calls : list call)
    (out : console) : console :=
  foldl (λ out c, logger (method c) NODE_ENV (now c) (message c) out)
        out calls.

(** The console method and the label that belong to a key. *)
Definition channel (k : key) : console_method :=
  match k with
  | debug => Cdebug
  | log => Clog
  | error => Cerror
  | warn => Cwarn
  end.

Definition label (k : key) : string :=
  match k with
  | debug => "DEBUG"
  | log => "LOG"
  | error => "ERROR"
  | warn => "WARN"
  end.

End Logger.

(** ** The Asana task content (Python)

    <<
    def generate_asana_task_content(task_type, campaign):
        if task_type == "stop":
            return dict(
                title=":octagonal_sign: STOP {campaign.adTitle} - {campaign.pid}",
                content=generate_asana_task_html(campaign),
            )
        if task_type == "create":
            return dict(
                title=f":mega: CREATE {campaign.adTitle} - {campaign.pid}",
                content=generate_asana_task_html(campaign),
            )
        if task_type == "delete":
            return dict(
                title=f":fire: DELETE {campaign.adTitle} - {campaign.pid}",
                content=generate_asana_task_html(campaign),
            )
    >>

    The listing is the buggy one: the title of the "stop" arm is no
    f-string.  The fix of the article puts the [f] in front of it.  The
    campaign schema and [generate_asana_task_html] are not part of the
    listing: the campaign is taken with the two string attributes the
    titles read, the HTML generator as a parameter. *)
Module Asana.

Record InternalCampaign := mkCampaign { adTitle : string; pid : string }.

(** [dict(title=..., content=...)] *)
Record task := mkTask { title : string; content : string }.

(** Python's [needle in haystack] on strings. *)
Fixpoint str_in (needle haystack : string) : bool :=
  String.prefix needle haystack ||
  match haystack with
  | EmptyString => false
  | String _ rest => str_in needle rest
  end.

Section Content.
Variable generate_asana_task_html : InternalCampaign → string.

(** As listed; falling off the end returns [None]. *)
Definition generate_asana_task_content (task_type : string)
    (campaign : InternalCampaign) : option task :=
  if decide (task_type = "stop") then
    Some (mkTask ":octagonal_sign: STOP {campaign.adTitle} - {campaign.pid}"
            (generate_asana_task_html campaign))
  else if decide (task_type = "create") then
    Some (mkTask
            (":mega: CREATE " +:+ adTitle campaign +:+ " - " +:+ pid campaign)
            (generate_asana_task_html campaign))
  else if decide (task_type = "delete") then
    Some (mkTask
            (":fire: DELETE " +:+ adTitle campaign +:+ " - " +:+ pid campaign)
            (generate_asana_task_html campaign))
  else None.

(** With the fix. *)
Definition generate_asana_task_content_fixed (task_type : string)
    (campaign : InternalCampaign) : option task :=
  if decide (task_type = "stop") then
    Some (mkTask
            (":octagonal_sign: STOP " +:+ adTitle campaign +:+ " - "
               +:+ pid campaign)
            (generate_asana_task_html campaign))
  else generate_asana_task_content task_type campaign.

(** The assertion of the bug test:
    [campaign.pid in generate(...)("stop", campaign)["title"]]. *)
Definition bug_test (generate : string → InternalCampaign → option task)
    (campaign : InternalCampaign) : bool :=
  match generate "stop" campaign with
  | Some d => str_in (pid campaign) (title d)
  | None => false
  end.

End Content.

End Asana.

Example script_output :
  fst <$> script [] =
  Some ([Str "array"; Str "indexes"], [Num (11 # 10)%Q; Num (12 # 10)%Q]).
Proof. reflexivity. Qed.

(** ** What one run computes *)

Section Facts.
Context {E : Type}.
Implicit Types (h : heap E) (s a ls ds : list E) (l d : loc) (n : Z).

Lemma relative_index_range len rel :
  0 ≤ len → 0 ≤ relative_index len rel ≤ len.
Proof.
  intros Hlen. unfold relative_index.
  destruct (Z.ltb_spec rel 0); lia.
Qed.

(** The copy loop appends the [count] elements that start at [k]. *)
Lemma slice_copy_spec a (count k : nat) (A : list E) :
  (k + count ≤ length a)%nat →
  slice_copy a count (Z.of_nat k) A = A ++ take count (drop k a).
Proof.
  revert k A. induction count as [|count IH]; intros k A Hk; simpl.
  - by rewrite take_0, app_nil_r.
  - rewrite Nat2Z.id.
    destruct (lookup_lt_is_Some_2 a k) as [x Hx]; [lia|].
    rewrite Hx, (drop_S _ _ _ Hx). simpl.
    replace (Z.of_nat k + 1) with (Z.of_nat (S k)) by lia.
    rewrite IH by lia. by rewrite <- app_assoc.
Qed.

(** [slice] on an allocated array: the new array sits at the end of the
    store and holds the elements between the two resolved indices. *)
Lemma slice_run h l a start end_ :
  h !! l = Some a →
  let len := Z.of_nat (length a) in
  let k := relative_index len start in
  let final := relative_index len end_ in
  slice l start end_ h =
    Some (length h,
          h ++ [take (Z.to_nat (final - k)) (drop (Z.to_nat k) a)]).
Proof.
  intros Hl len k final. unfold slice, bind, deref, alloc. rewrite Hl.
  fold len. fold k. fold final.
  assert (Hlen : len = Z.of_nat (length a)) by done.
  pose proof (relative_index_range len start ltac:(lia)) as Hk.
  pose proof (relative_index_range len end_ ltac:(lia)) as Hf.
  fold k in Hk. fold final in Hf.
  clearbody k final len.
  replace (slice_copy a (Z.to_nat (Z.max (final - k) 0)) k [])
    with (slice_copy a (Z.to_nat (Z.max (final - k) 0))
            (Z.of_nat (Z.to_nat k)) [])
    by (by rewrite Z2Nat.id by lia).
  rewrite slice_copy_spec by lia. simpl.
  by replace (Z.to_nat (Z.max (final - k) 0)) with (Z.to_nat (final - k))
    by lia.
Qed.

(** The slice the function asks for is the window. *)
Lemma slice_window h l a n :
  h !! l = Some a →
  slice l (Math_max 0 (Z.of_nat (length a) - n)) (Z.of_nat (length a)) h =
    Some (length h, h ++ [window n a]).
Proof.
  intros Hl. rewrite (slice_run _ _ _ _ _ Hl). cbv zeta.
  unfold window, Math_max, relative_index.
  set (len := Z.of_nat (length a)).
  set (st := Z.max 0 (len - n)).
  assert (Hst : 0 ≤ st) by lia.
  destruct (Z.ltb_spec st 0); [lia|].
  destruct (Z.ltb_spec len 0); [lia|].
  do 3 f_equal.
  rewrite Z.min_id.
  rewrite take_ge by (rewrite length_drop; lia).
  destruct (Z.le_gt_cases st len).
  - by rewrite Z.min_l.
  - rewrite Z.min_r by lia. by rewrite !drop_ge by lia.
Qed.

(** One run of the function on two allocated arrays: the result object
    refers to two new arrays appended to the store, each the window of
    its own input. *)
Lemma disect_run h l d ls ds n :
  h !! l = Some ls → h !! d = Some ds →
  disectChartData l d n h =
    Some (mkChartData (length h) (S (length h)),
          h ++ [window n ls; window n ds]).
Proof.
  intros Hl Hd. unfold disectChartData, get_length, bind at 1 2 3 4, deref, ret.
  rewrite Hl, Hd. unfold bind.
  rewrite (slice_window _ _ _ _ Hl).
  assert (Hd' : (h ++ [window n ls]) !! d = Some ds).
  { rewrite lookup_app_l; [done|]. by eapply lookup_lt_Some. }
  rewrite (slice_window _ _ _ _ Hd').
  rewrite length_app, <- app_assoc. simpl.
  by rewrite Nat.add_1_r.
Qed.

Lemma result_labels_lookup h (x y : list E) :
  (h ++ [x; y]) !! length h = Some x.
Proof. by apply list_lookup_middle. Qed.

Lemma result_data_lookup h (x y : list E) :
  (h ++ [x; y]) !! S (length h) = Some y.
Proof.
  change (h ++ [x; y]) with (h ++ [x] ++ [y]).
  rewrite app_assoc. apply list_lookup_middle.
  rewrite length_app. simpl. lia.
Qed.

Lemma out_labels_window h l d ls ds n :
  h !! l = Some ls → h !! d = Some ds →
  out_labels h l d n = Some (window n ls).
Proof.
  intros Hl Hd. unfold out_labels. rewrite (disect_run _ _ _ _ _ _ Hl Hd).
  apply result_labels_lookup.
Qed.

Lemma out_data_window h l d ls ds n :
  h !! l = Some ls → h !! d = Some ds →
  out_data h l d n = Some (window n ds).
Proof.
  intros Hl Hd. unfold out_data. rewrite (disect_run _ _ _ _ _ _ Hl Hd).
  apply result_data_lookup.
Qed.

End Facts.

(** ** The window *)

Section Window.
Context {E : Type}.
Implicit Types (s : list E) (n : Z).

Lemma window_length n s :
  Z.of_nat (length (window n s)) = Z.min (Z.max n 0) (Z.of_nat (length s)).
Proof. unfold window. rewrite length_drop. lia. Qed.

Lemma window_whole n s : Z.of_nat (length s) ≤ n → window n s = s.
Proof.
  intros Hn. unfold window.
  by replace (Z.to_nat (Z.max 0 (Z.of_nat (length s) - n))) with 0%nat
    by lia.
Qed.

Lemma window_nil n s : n ≤ 0 → window n s = [].
Proof. intros Hn. unfold window. apply drop_ge. lia. Qed.

Lemma window_last_n n s : window n s = last_n n s.
Proof.
  unfold last_n. rewrite take_reverse, reverse_involutive.
  destruct (Z.le_gt_cases n 0) as [Hn|Hn].
  - rewrite window_nil by done. symmetry. apply drop_ge. lia.
  - unfold window. f_equal. lia.
Qed.

Lemma window_suffix n s : window n s `suffix_of` s.
Proof. apply suffix_drop. Qed.

Lemma window_idem n s : window n (window n s) = window n s.
Proof.
  destruct (Z.le_gt_cases n 0) as [Hn|Hn].
  - by rewrite (window_nil n s), window_nil.
  - apply window_whole. rewrite window_length. lia.
Qed.

(** The [i]-th element of the window is the element [i] places after the
    start index. *)
Lemma window_lookup n s (i : nat) :
  0 ≤ n ≤ Z.of_nat (length s) →
  window n s !! i = s !! (Z.to_nat (Z.of_nat (length s) - n) + i)%nat.
Proof.
  intros Hn. unfold window. rewrite lookup_drop. f_equal. lia.
Qed.

(** A window of a wider window is the window of the original. *)
Lemma window_window (n m : Z) s :
  n ≤ m → window n (window m s) = window n s.
Proof.
  intros Hnm. destruct (Z.le_gt_cases n 0) as [Hn|Hn].
  - by rewrite !window_nil by done.
  - unfold window at 1 3. rewrite window_length.
    unfold window. rewrite drop_drop. f_equal. lia.
Qed.

Lemma window_last n s :
  1 ≤ n → s ≠ [] → last (window n s) = last s ∧ is_Some (last (window n s)).
Proof.
  intros Hn Hs. destruct (window_suffix n s) as [pre Hpre].
  assert (Hw : window n s ≠ []).
  { intros Hnil. apply (f_equal length) in Hnil.
    apply (f_equal Z.of_nat) in Hnil. rewrite window_length in Hnil.
    destruct s; [done|]. simpl in Hnil. lia. }
  destruct (window n s) as [|x w] eqn:Hwin using rev_ind; [done|].
  rewrite Hpre, app_assoc, !last_snoc. eauto.
Qed.

End Window.

(** ** Properties of disectChartData *)

Section Claims.
Context {E : Type}.
Implicit Types (h : heap E) (ls ds out : list E) (l d : loc) (n : Z).

Local Abbreviation len s := (Z.of_nat (length s)).

(** C1.  For a length strictly between 0 and the length of an input
    array, the corresponding output array has exactly [n] elements and
    is the last [n] elements of the input in their original order: its
    [i]-th element is the input's element at [len - n + i].  This holds
    for the labels and for the data, each against its own input. *)
Theorem disect_interior_window h l d ls ds n :
  h !! l = Some ls → h !! d = Some ds →
  (0 < n < len ls →
     ∃ out, out_labels h l d n = Some out ∧ len out = n ∧
            out = last_n n ls ∧
            ∀ i : nat, out !! i = ls !! (Z.to_nat (len ls - n) + i)%nat) ∧
  (0 < n < len ds →
     ∃ out, out_data h l d n = Some out ∧ len out = n ∧
            out = last_n n ds ∧
            ∀ i : nat, out !! i = ds !! (Z.to_nat (len ds - n) + i)%nat).
Proof.
  intros Hl Hd. split; intros Hn.
  - exists (window n ls). split; [by eapply out_labels_window|].
    split; [rewrite window_length; lia|].
    split; [apply window_last_n|].
    intros i. apply window_lookup. lia.
  - exists (window n ds). split; [by eapply out_data_window|].
    split; [rewrite window_length; lia|].
    split; [apply window_last_n|].
    intros i. apply window_lookup. lia.
Qed.

(** C2.  For a length at least the length of an input array, the start
    index the code computes is clamped at 0, the call returns normally,
    and the corresponding output array holds the input's elements
    unchanged, in the same order. *)
Theorem disect_oversized_unchanged h l d ls ds n :
  h !! l = Some ls → h !! d = Some ds →
  (len ls ≤ n →
     Math_max 0 (len ls - n) = 0 ∧ out_labels h l d n = Some ls) ∧
  (len ds ≤ n →
     Math_max 0 (len ds - n) = 0 ∧ out_data h l d n = Some ds).
Proof.
  intros Hl Hd. split; intros Hn; (split; [unfold Math_max; lia|]).
  - rewrite (out_labels_window _ _ _ _ _ _ Hl Hd). by rewrite window_whole.
  - rewrite (out_data_window _ _ _ _ _ _ Hl Hd). by rewrite window_whole.
Qed.

(** C3.  For a negative length the call returns normally and both output
    arrays are empty. *)
Theorem disect_negative_empty h l d ls ds n :
  h !! l = Some ls → h !! d = Some ds → n < 0 →
  out_labels h l d n = Some [] ∧ out_data h l d n = Some [].
Proof.
  intros Hl Hd Hn.
  rewrite (out_labels_window _ _ _ _ _ _ Hl Hd).
  rewrite (out_data_window _ _ _ _ _ _ Hl Hd).
  by rewrite !window_nil by lia.
Qed.

(** C4.  The two outputs are computed independently.  Two calls with the
    same labels contents and the same length yield the same labels
    output whatever the data are, and symmetrically for the data output;
    each output has the length clamped against its own input, and with a
    length covering both inputs each comes back whole, so inputs of
    different lengths give outputs of different lengths. *)
Theorem disect_outputs_independent
    h1 h2 l1 d1 l2 d2 ls1 ds1 ls2 ds2 n :
  h1 !! l1 = Some ls1 → h1 !! d1 = Some ds1 →
  h2 !! l2 = Some ls2 → h2 !! d2 = Some ds2 →
  (ls1 = ls2 → out_labels h1 l1 d1 n = out_labels h2 l2 d2 n) ∧
  (ds1 = ds2 → out_data h1 l1 d1 n = out_data h2 l2 d2 n) ∧
  ∃ lo do,
    out_labels h1 l1 d1 n = Some lo ∧ out_data h1 l1 d1 n = Some do ∧
    len lo = Z.min (Z.max n 0) (len ls1) ∧
    len do = Z.min (Z.max n 0) (len ds1) ∧
    (len ls1 ≤ n → len ds1 ≤ n → lo = ls1 ∧ do = ds1).
Proof.
  intros Hl1 Hd1 Hl2 Hd2.
  rewrite (out_labels_window _ _ _ _ _ _ Hl1 Hd1).
  rewrite (out_labels_window _ _ _ _ _ _ Hl2 Hd2).
  rewrite (out_data_window _ _ _ _ _ _ Hl1 Hd1).
  rewrite (out_data_window _ _ _ _ _ _ Hl2 Hd2).
  split; [by intros ->|]. split; [by intros ->|].
  exists (window n ls1), (window n ds1).
  repeat split; try apply window_length; by apply window_whole.
Qed.

(** C5.  For every length, negative, zero, interior or oversized, each
    output array has exactly min(max(length, 0), len(input)) elements. *)
Theorem disect_output_length h l d ls ds n :
  h !! l = Some ls → h !! d = Some ds →
  ∃ lo do,
    out_labels h l d n = Some lo ∧ out_data h l d n = Some do ∧
    len lo = Z.min (Z.max n 0) (len ls) ∧
    len do = Z.min (Z.max n 0) (len ds).
Proof.
  intros Hl Hd. exists (window n ls), (window n ds).
  split; [by eapply out_labels_window|].
  split; [by eapply out_data_window|].
  split; apply window_length.
Qed.

(** C6.  For every length, each output array is a contiguous suffix of
    its input array: the input is some prefix followed by the output, so
    the order of the elements is the input's. *)
Theorem disect_output_suffix h l d ls ds n :
  h !! l = Some ls → h !! d = Some ds →
  ∃ lo do,
    out_labels h l d n = Some lo ∧ out_data h l d n = Some do ∧
    (∃ pre, ls = pre ++ lo) ∧ (∃ pre, ds = pre ++ do).
Proof.
  intros Hl Hd. exists (window n ls), (window n ds).
  split; [by eapply out_labels_window|].
  split; [by eapply out_data_window|].
  split; apply window_suffix.
Qed.

(** C7.  The function is idempotent at a fixed length: called again with
    the same length on the two arrays of its own result, it returns
    arrays with exactly the contents of the first result. *)
Theorem disect_idempotent h l d ls ds n :
  h !! l = Some ls → h !! d = Some ds →
  ∃ r h' lo do,
    disectChartData l d n h = Some (r, h') ∧
    out_labels h l d n = Some lo ∧ out_data h l d n = Some do ∧
    out_labels h' (labels r) (data r) n = Some lo ∧
    out_data h' (labels r) (data r) n = Some do.
Proof.
  intros Hl Hd.
  eexists _, _, (window n ls), (window n ds).
  split; [by apply disect_run|].
  split; [by eapply out_labels_window|].
  split; [by eapply out_data_window|].
  cbn [labels data].
  pose proof (result_labels_lookup h (window n ls) (window n ds)) as Hl'.
  pose proof (result_data_lookup h (window n ls) (window n ds)) as Hd'.
  rewrite (out_labels_window _ _ _ _ _ _ Hl' Hd').
  rewrite (out_data_window _ _ _ _ _ _ Hl' Hd').
  by rewrite !window_idem.
Qed.

(** C8.  With length 0 each output array is empty, whatever the inputs
    hold and however long they are. *)
Theorem disect_zero_empty h l d ls ds :
  h !! l = Some ls → h !! d = Some ds →
  out_labels h l d 0 = Some [] ∧ out_data h l d 0 = Some [].
Proof.
  intros Hl Hd.
  rewrite (out_labels_window _ _ _ _ _ _ Hl Hd).
  rewrite (out_data_window _ _ _ _ _ _ Hl Hd).
  by rewrite !window_nil by lia.
Qed.

(** C9.  The function is total: on any two arrays, empty ones included,
    and any integer length, the call returns normally with an object
    whose [labels] and [data] are both arrays. *)
Theorem disect_total h l d ls ds n :
  h !! l = Some ls → h !! d = Some ds →
  ∃ r h' lo do,
    disectChartData l d n h = Some (r, h') ∧
    h' !! labels r = Some lo ∧ h' !! data r = Some do.
Proof.
  intros Hl Hd.
  eexists _, _, (window n ls), (window n ds).
  split; [by apply disect_run|]. cbn [labels data].
  split; [apply result_labels_lookup | apply result_data_lookup].
Qed.

(** C10.  The call mutates nothing: the two input arrays, and every
    other array of the store, hold after the call what they held
    before.  The two arrays of the result are new objects, distinct
    from each other and from every array that existed before the call,
    the inputs included, and they hold copies of the trailing portions:
    the last [n] elements of the labels and of the data, each a suffix of
    its input. *)
Theorem disect_preserves_inputs h l d ls ds n :
  h !! l = Some ls → h !! d = Some ds →
  ∃ r h',
    disectChartData l d n h = Some (r, h') ∧
    h' !! l = Some ls ∧ h' !! d = Some ds ∧
    (∀ p a, h !! p = Some a → h' !! p = Some a) ∧
    h !! labels r = None ∧ h !! data r = None ∧
    labels r ≠ data r ∧
    labels r ≠ l ∧ labels r ≠ d ∧ data r ≠ l ∧ data r ≠ d ∧
    h' !! labels r = Some (last_n n ls) ∧
    h' !! data r = Some (last_n n ds) ∧
    (∃ pre, ls = pre ++ last_n n ls) ∧ (∃ pre, ds = pre ++ last_n n ds).
Proof.
  intros Hl Hd. eexists _, _.
  split; [by apply disect_run|]. cbn [labels data].
  pose proof (lookup_lt_Some _ _ _ Hl). pose proof (lookup_lt_Some _ _ _ Hd).
  split; [by apply lookup_app_l_Some|].
  split; [by apply lookup_app_l_Some|].
  split; [intros p a Hp; by apply lookup_app_l_Some|].
  split; [apply lookup_ge_None_2; lia|].
  split; [apply lookup_ge_None_2; lia|].
  do 5 (split; [lia|]).
  rewrite <- !window_last_n.
  split; [apply result_labels_lookup|].
  split; [apply result_data_lookup|].
  split; apply window_suffix.
Qed.

End Claims.

(** ** The properties at the sample stores *)

(** Labels [a, b, c], data [1, 2, 3], length 2: the result is
    [{labels: [b, c], data: [2, 3]}]. *)
Lemma disect_interior_window_witness :
  store_aligned !! 0%nat = Some abc ∧
  store_aligned !! 1%nat = Some [Int 1; Int 2; Int 3] ∧
  0 < 2 < 3 ∧
  out_labels store_aligned 0 1 2 = Some [Str "b"; Str "c"] ∧
  out_data store_aligned 0 1 2 = Some [Int 2; Int 3].
Proof.
  do 2 (split; [reflexivity|]). split; [lia|].
  destruct (disect_interior_window store_aligned 0%nat 1%nat
              abc [Int 1; Int 2; Int 3] 2 eq_refl eq_refl) as [HL HD].
  destruct HL as (lo & Hlo & _ & -> & _); [split; reflexivity|].
  destruct HD as (do & Hdo & _ & -> & _); [split; reflexivity|].
  split; [exact Hlo | exact Hdo].
Defined.

(** Labels [a, b, c], data [1, 2], length 5: both come back whole. *)
Lemma disect_oversized_unchanged_witness :
  store_ragged !! 0%nat = Some abc ∧
  store_ragged !! 1%nat = Some [Int 1; Int 2] ∧
  3 ≤ 5 ∧ 2 ≤ 5 ∧
  out_labels store_ragged 0 1 5 = Some abc ∧
  out_data store_ragged 0 1 5 = Some [Int 1; Int 2].
Proof.
  do 2 (split; [reflexivity|]). do 2 (split; [lia|]).
  destruct (disect_oversized_unchanged store_ragged 0%nat 1%nat
              abc [Int 1; Int 2] 5 eq_refl eq_refl) as [HL HD].
  split; [apply HL | apply HD]; simpl; lia.
Defined.

Lemma disect_negative_empty_witness :
  store_aligned !! 0%nat = Some abc ∧
  store_aligned !! 1%nat = Some [Int 1; Int 2; Int 3] ∧
  -1 < 0 ∧
  out_labels store_aligned 0 1 (-1) = Some [] ∧
  out_data store_aligned 0 1 (-1) = Some [].
Proof.
  do 2 (split; [reflexivity|]). split; [lia|].
  apply (disect_negative_empty store_aligned 0%nat 1%nat
           abc [Int 1; Int 2; Int 3] (-1)); [reflexivity|reflexivity|lia].
Defined.

(** The same labels next to data of length 2 and of length 3. *)
Lemma disect_outputs_independent_witness :
  store_ragged !! 0%nat = Some abc ∧
  store_ragged !! 1%nat = Some [Int 1; Int 2] ∧
  store_aligned !! 0%nat = Some abc ∧
  store_aligned !! 1%nat = Some [Int 1; Int 2; Int 3] ∧
  out_labels store_ragged 0 1 5 = out_labels store_aligned 0 1 5 ∧
  ∃ lo do,
    out_labels store_ragged 0 1 5 = Some lo ∧
    out_data store_ragged 0 1 5 = Some do ∧
    Z.of_nat (length lo) = 3 ∧ Z.of_nat (length do) = 2 ∧
    lo = abc ∧ do = [Int 1; Int 2].
Proof.
  do 4 (split; [reflexivity|]).
  destruct (disect_outputs_independent store_ragged store_aligned
              0%nat 1%nat 0%nat 1%nat
              abc [Int 1; Int 2] abc [Int 1; Int 2; Int 3] 5
              eq_refl eq_refl eq_refl eq_refl)
    as (HL & _ & lo & do & Hlo & Hdo & Hnl & Hnd & Hall).
  split; [exact (HL eq_refl)|].
  exists lo, do. destruct Hall as [-> ->]; [simpl; lia|simpl; lia|].
  repeat split; assumption || reflexivity.
Defined.

Lemma disect_output_length_witness :
  store_ragged !! 0%nat = Some abc ∧
  store_ragged !! 1%nat = Some [Int 1; Int 2] ∧
  ∃ lo do,
    out_labels store_ragged 0 1 3 = Some lo ∧
    out_data store_ragged 0 1 3 = Some do ∧
    Z.of_nat (length lo) = 3 ∧ Z.of_nat (length do) = 2.
Proof.
  do 2 (split; [reflexivity|]).
  exact (disect_output_length store_ragged 0%nat 1%nat
           abc [Int 1; Int 2] 3 eq_refl eq_refl).
Defined.

Lemma disect_output_suffix_witness :
  store_aligned !! 0%nat = Some abc ∧
  store_aligned !! 1%nat = Some [Int 1; Int 2; Int 3] ∧
  ∃ lo do,
    out_labels store_aligned 0 1 2 = Some lo ∧
    out_data store_aligned 0 1 2 = Some do ∧
    (∃ pre, abc = pre ++ lo) ∧ (∃ pre, [Int 1; Int 2; Int 3] = pre ++ do).
Proof.
  do 2 (split; [reflexivity|]).
  exact (disect_output_suffix store_aligned 0%nat 1%nat
           abc [Int 1; Int 2; Int 3] 2 eq_refl eq_refl).
Defined.

Lemma disect_idempotent_witness :
  store_aligned !! 0%nat = Some abc ∧
  store_aligned !! 1%nat = Some [Int 1; Int 2; Int 3] ∧
  ∃ r h' lo do,
    disectChartData 0%nat 1%nat 2 store_aligned = Some (r, h') ∧
    out_labels store_aligned 0 1 2 = Some lo ∧
    out_data store_aligned 0 1 2 = Some do ∧
    out_labels h' (labels r) (data r) 2 = Some lo ∧
    out_data h' (labels r) (data r) 2 = Some do.
Proof.
  do 2 (split; [reflexivity|]).
  exact (disect_idempotent store_aligned 0%nat 1%nat
           abc [Int 1; Int 2; Int 3] 2 eq_refl eq_refl).
Defined.

Lemma disect_zero_empty_witness :
  store_ragged !! 0%nat = Some abc ∧
  store_ragged !! 1%nat = Some [Int 1; Int 2] ∧
  out_labels store_ragged 0 1 0 = Some [] ∧
  out_data store_ragged 0 1 0 = Some [].
Proof.
  do 2 (split; [reflexivity|]).
  exact (disect_zero_empty store_ragged 0%nat 1%nat
           abc [Int 1; Int 2] eq_refl eq_refl).
Defined.

(** Two empty arrays, length 10: the result is [{labels: [], data: []}]. *)
Lemma disect_total_witness :
  store_empty !! 0%nat = Some [] ∧
  store_empty !! 1%nat = Some [] ∧
  ∃ r h' lo do,
    disectChartData 0%nat 1%nat 10 store_empty = Some (r, h') ∧
    h' !! labels r = Some lo ∧ h' !! data r = Some do.
Proof.
  do 2 (split; [reflexivity|]).
  exact (disect_total store_empty 0%nat 1%nat [] [] 10 eq_refl eq_refl).
Defined.

(** One array passed as both labels and data. *)
Lemma disect_preserves_inputs_witness :
  store_shared !! 0%nat = Some abc ∧
  ∃ r h',
    disectChartData 0%nat 0%nat 2 store_shared = Some (r, h') ∧
    h' !! 0%nat = Some abc ∧ h' !! 0%nat = Some abc ∧
    (∀ p a, store_shared !! p = Some a → h' !! p = Some a) ∧
    store_shared !! labels r = None ∧ store_shared !! data r = None ∧
    labels r ≠ data r ∧
    labels r ≠ 0%nat ∧ labels r ≠ 0%nat ∧ data r ≠ 0%nat ∧ data r ≠ 0%nat ∧
    h' !! labels r = Some [Str "b"; Str "c"] ∧
    h' !! data r = Some [Str "b"; Str "c"] ∧
    (∃ pre, abc = pre ++ [Str "b"; Str "c"]) ∧
    (∃ pre, abc = pre ++ [Str "b"; Str "c"]).
Proof.
  split; [reflexivity|].
  exact (disect_preserves_inputs store_shared 0%nat 0%nat abc abc 2
           eq_refl eq_refl).
Defined.

(** ** getSlice, and more on the window *)

Section Slices.
Context {E : Type}.
Implicit Types (h : heap E) (a ls ds out : list E) (arr l d : loc).

Local Abbreviation len s := (Z.of_nat (length s)).

Lemma lookup_alloc_end h (x : list E) : (h ++ [x]) !! length h = Some x.
Proof. by apply list_lookup_middle. Qed.

Lemma out_getSlice_eq h arr a start end_ :
  h !! arr = Some a →
  out_getSlice h start end_ arr =
    Some (take (Z.to_nat (relative_index (len a) end_
                          - relative_index (len a) start))
            (drop (Z.to_nat (relative_index (len a) start)) a)).
Proof.
  intros Ha. unfold out_getSlice, getSlice.
  rewrite (slice_run _ _ _ _ _ Ha). cbv zeta. apply lookup_alloc_end.
Qed.

Lemma take_drop_inner a (i n c m : nat) :
  (i + n ≤ m)%nat →
  take n (drop i (take m (drop c a))) = take n (drop (c + i) a).
Proof.
  intros Hm. apply list_eq. intros j.
  destruct (decide (j < n)%nat) as [Hj|Hj].
  - rewrite !lookup_take_lt, !lookup_drop by done.
    rewrite lookup_take_lt, lookup_drop by lia. f_equal. lia.
  - by rewrite !lookup_take_ge by lia.
Qed.

Lemma relative_index_inside n i : 0 ≤ i ≤ n → relative_index n i = i.
Proof.
  intros Hi. unfold relative_index. destruct (Z.ltb_spec i 0); lia.
Qed.

(** X1.  For indices in range, [getSlice(start, end, arr)] returns the
    [end - start] elements at indices [start], ..., [end - 1]: the element
    at index [end] is not part of it. *)
Theorem getSlice_in_range h arr a start end_ :
  h !! arr = Some a → 0 ≤ start ≤ end_ → end_ ≤ len a →
  ∃ out,
    out_getSlice h start end_ arr = Some out ∧
    len out = end_ - start ∧
    (∀ i : nat, Z.of_nat i < end_ - start →
       out !! i = a !! (Z.to_nat start + i)%nat) ∧
    a = take (Z.to_nat start) a ++ out ++ drop (Z.to_nat end_) a.
Proof.
  intros Ha Hse He. eexists. split; [by apply out_getSlice_eq|].
  rewrite !relative_index_inside by lia.
  split; [rewrite length_take, length_drop; lia|]. split.
  - intros i Hi. rewrite lookup_take_lt by lia. apply lookup_drop.
  - rewrite <- (take_drop (Z.to_nat start) a) at 1. f_equal.
    rewrite <- (take_drop (Z.to_nat (end_ - start))
                  (drop (Z.to_nat start) a)) at 1.
    f_equal. rewrite drop_drop. f_equal. lia.
Qed.

(** X2.  Whatever the two indices are, negative or past the end, [getSlice]
    returns normally; the result is a new array holding a contiguous run
    of the elements of [arr], and [arr] itself is left as it was. *)
Theorem getSlice_total_sublist h arr a start end_ :
  h !! arr = Some a →
  ∃ r h' out,
    getSlice start end_ arr h = Some (r, h') ∧
    h' !! r = Some out ∧
    (∃ pre post, a = pre ++ out ++ post) ∧
    h !! r = None ∧ h' !! arr = Some a.
Proof.
  intros Ha. unfold getSlice. rewrite (slice_run _ _ _ _ _ Ha). cbv zeta.
  eexists _, _, _. split; [done|].
  split; [apply lookup_alloc_end|]. split; [|split].
  - set (k := Z.to_nat (relative_index (len a) start)).
    set (c := Z.to_nat (_ - _)).
    exists (take k a), (drop c (drop k a)).
    by rewrite take_drop, take_drop.
  - by apply lookup_ge_None_2.
  - by apply lookup_app_l_Some.
Qed.

(** X3.  The end index is exclusive: on a non-empty array, [getSlice(0, end,
    arr)] gives back the whole array exactly when [end] is at least the
    length.  Passing the last index, [length - 1], or a negative index,
    always loses elements. *)
Theorem getSlice_whole_iff h arr a end_ :
  h !! arr = Some a → a ≠ [] →
  (out_getSlice h 0 end_ arr = Some a ↔ len a ≤ end_).
Proof.
  intros Ha Hne. rewrite (out_getSlice_eq _ _ _ _ _ Ha).
  assert (0 < len a) by (destruct a; [done|simpl; lia]).
  rewrite (relative_index_inside (len a) 0) by lia.
  rewrite Z.sub_0_r. change (Z.to_nat 0) with 0%nat. rewrite drop_0.
  split.
  - intros [= Heq]. apply (f_equal length) in Heq.
    rewrite length_take in Heq. revert Heq. unfold relative_index.
    destruct (Z.ltb_spec end_ 0); lia.
  - intros He. f_equal. apply take_ge. unfold relative_index.
    destruct (Z.ltb_spec end_ 0); lia.
Qed.


(** X5.  Slicing a slice: for indices in range, [getSlice(a, b, ...)] applied
    to the result of [getSlice(c, d, arr)] returns what
    [getSlice(c + a, c + b, arr)] returns on the original array. *)
Theorem getSlice_compose h arr s (a b c d : Z) :
  h !! arr = Some s →
  0 ≤ c ≤ d → d ≤ len s → 0 ≤ a ≤ b → b ≤ d - c →
  ∃ r h',
    getSlice c d arr h = Some (r, h') ∧
    out_getSlice h' a b r = out_getSlice h (c + a) (c + b) arr ∧
    is_Some (out_getSlice h' a b r).
Proof.
  intros Hs Hcd Hd Hab Hb. unfold getSlice at 1.
  rewrite (slice_run _ _ _ _ _ Hs). cbv zeta. eexists _, _. split; [done|].
  rewrite !relative_index_inside by lia.
  set (mid := take (Z.to_nat (d - c)) (drop (Z.to_nat c) s)).
  assert (Hmid : len mid = d - c).
  { unfold mid. rewrite length_take, length_drop. lia. }
  rewrite (out_getSlice_eq _ _ mid) by apply lookup_alloc_end.
  rewrite (out_getSlice_eq _ _ _ _ _ Hs).
  rewrite !relative_index_inside by lia.
  split; [|done]. f_equal. unfold mid.
  replace (Z.to_nat (c + b - (c + a))) with (Z.to_nat (b - a)) by lia.
  replace (Z.to_nat (c + a)) with (Z.to_nat c + Z.to_nat a)%nat by lia.
  apply take_drop_inner. lia.
Qed.

(** X6.  Narrowing twice is narrowing once: a call with length [n] on the
    result of a call with a length [m ≥ n] returns the same contents as
    the call with [n] on the original arrays. *)
Theorem disect_narrowing h l d ls ds (n m : Z) :
  h !! l = Some ls → h !! d = Some ds → n ≤ m →
  ∃ r h' lo do,
    disectChartData l d m h = Some (r, h') ∧
    out_labels h l d n = Some lo ∧ out_data h l d n = Some do ∧
    out_labels h' (labels r) (data r) n = Some lo ∧
    out_data h' (labels r) (data r) n = Some do.
Proof.
  intros Hl Hd Hnm.
  eexists _, _, (window n ls), (window n ds).
  split; [by apply disect_run|].
  split; [by eapply out_labels_window|].
  split; [by eapply out_data_window|].
  cbn [labels data].
  pose proof (result_labels_lookup h (window m ls) (window m ds)) as Hl'.
  pose proof (result_data_lookup h (window m ls) (window m ds)) as Hd'.
  rewrite (out_labels_window _ _ _ _ _ _ Hl' Hd').
  rewrite (out_data_window _ _ _ _ _ _ Hl' Hd').
  by rewrite !window_window by done.
Qed.

(** X7.  A longer length never shows less: for [n ≤ m] each output of the call
    with [n] is a suffix of the matching output of the call with [m]. *)
Theorem disect_monotone h l d ls ds (n m : Z) :
  h !! l = Some ls → h !! d = Some ds → n ≤ m →
  ∃ lo do lo' do',
    out_labels h l d n = Some lo ∧ out_data h l d n = Some do ∧
    out_labels h l d m = Some lo' ∧ out_data h l d m = Some do' ∧
    (∃ pre, lo' = pre ++ lo) ∧ (∃ pre, do' = pre ++ do).
Proof.
  intros Hl Hd Hnm.
  exists (window n ls), (window n ds), (window m ls), (window m ds).
  rewrite !(out_labels_window _ _ _ _ _ _ Hl Hd).
  rewrite !(out_data_window _ _ _ _ _ _ Hl Hd).
  do 4 (split; [done|]).
  split; rewrite <- (window_window n m) by done; apply window_suffix.
Qed.

(** X8.  Inputs of equal length stay aligned: the call drops the same number
    of leading elements from the labels and from the data, so equal
    positions of the two outputs still belong together. *)
Theorem disect_alignment h l d ls ds n :
  h !! l = Some ls → h !! d = Some ds → length ls = length ds →
  ∃ (k : nat) lo do,
    out_labels h l d n = Some lo ∧ out_data h l d n = Some do ∧
    lo = drop k ls ∧ do = drop k ds ∧ length lo = length do.
Proof.
  intros Hl Hd Hlen.
  exists (Z.to_nat (Z.max 0 (len ls - n))), (window n ls), (window n ds).
  rewrite (out_labels_window _ _ _ _ _ _ Hl Hd).
  rewrite (out_data_window _ _ _ _ _ _ Hl Hd).
  unfold window. rewrite <- Hlen. repeat split.
  rewrite !length_drop. lia.
Qed.

(** X9.  The latest point is always kept: with a length of at least 1, the
    last element of a non-empty input is the last element of its
    output. *)
Theorem disect_keeps_latest h l d ls ds n :
  h !! l = Some ls → h !! d = Some ds → 1 ≤ n →
  ∃ lo do,
    out_labels h l d n = Some lo ∧ out_data h l d n = Some do ∧
    (ls ≠ [] → last lo = last ls ∧ is_Some (last lo)) ∧
    (ds ≠ [] → last do = last ds ∧ is_Some (last do)).
Proof.
  intros Hl Hd Hn. exists (window n ls), (window n ds).
  split; [by eapply out_labels_window|].
  split; [by eapply out_data_window|].
  split; intros Hne; by apply window_last.
Qed.

End Slices.

(** ** The digits of an integer *)

Section Digits.

(** Induction along the loop: from [n / 10] to [n]. *)
Lemma div10_ind (P : Z → Prop) :
  (∀ n, ¬ n > 0 → P n) → (∀ n, n > 0 → P (n / 10) → P n) → ∀ n, P n.
Proof.
  intros Hz Hs n. remember (Z.to_nat n) as k eqn:Hk. revert n Hk.
  induction k as [k IH] using lt_wf_ind. intros n ->.
  destruct (decide (n > 0)) as [Hn|Hn]; [|by apply Hz].
  apply Hs; [done|]. apply (IH (Z.to_nat (n / 10))); [|done].
  assert (n / 10 < n) by (apply Z.div_lt; lia).
  assert (0 ≤ n / 10) by (apply Z.div_pos; lia). lia.
Qed.

Lemma digits_while_pos n acc :
  n > 0 → digits_while n acc = digits_while (n / 10) (acc ++ [n mod 10]).
Proof.
  intros Hn. rewrite (digits_while_equation_1 n acc).
  by destruct (decide (n > 0)).
Qed.

Lemma digits_while_done n acc : ¬ n > 0 → digits_while n acc = acc.
Proof.
  intros Hn. rewrite (digits_while_equation_1 n acc).
  by destruct (decide (n > 0)).
Qed.

Lemma digit_closure_pos n :
  n > 0 → digit_closure n = (Some (n mod 10), n / 10).
Proof. intros Hn. unfold digit_closure. by destruct (decide (n > 0)). Qed.

Lemma digit_closure_done n : ¬ n > 0 → digit_closure n = (None, n).
Proof. intros Hn. unfold digit_closure. by destruct (decide (n > 0)). Qed.

Lemma collect_from_fn_pos n v :
  n > 0 → collect_from_fn n v = collect_from_fn (n / 10) (v ++ [n mod 10]).
Proof.
  intros Hn. rewrite (collect_from_fn_equation_1 n v).
  destruct (inspect (digit_closure n)) as [[[digit|] n'] Hcall]; simpl;
    rewrite (digit_closure_pos n Hn) in Hcall.
  - by injection Hcall as <- <-.
  - discriminate Hcall.
Qed.

Lemma collect_from_fn_done n v : ¬ n > 0 → collect_from_fn n v = v.
Proof.
  intros Hn. rewrite (collect_from_fn_equation_1 n v).
  destruct (inspect (digit_closure n)) as [[[digit|] n'] Hcall]; simpl;
    rewrite (digit_closure_done n Hn) in Hcall.
  - discriminate Hcall.
  - done.
Qed.

Lemma collect_is_while n : ∀ v, collect_from_fn n v = digits_while n v.
Proof.
  induction n as [n Hn|n Hn IH] using div10_ind; intros v.
  - by rewrite collect_from_fn_done, digits_while_done.
  - by rewrite collect_from_fn_pos, digits_while_pos, IH.
Qed.

Lemma digits_while_acc n :
  ∀ acc, digits_while n acc = acc ++ digits_while n [].
Proof.
  induction n as [n Hn|n Hn IH] using div10_ind; intros acc.
  - by rewrite !digits_while_done, app_nil_r.
  - rewrite !(digits_while_pos n) by done.
    rewrite IH, (IH ([] ++ _)). by rewrite <- app_assoc.
Qed.

Lemma get_digits_pos n :
  n > 0 →
  get_digits_arithmetic n = get_digits_arithmetic (n / 10) ++ [n mod 10].
Proof.
  intros Hn. unfold get_digits_arithmetic.
  rewrite digits_while_pos, digits_while_acc by done.
  by rewrite reverse_app.
Qed.

Lemma get_digits_zero n : ¬ n > 0 → get_digits_arithmetic n = [].
Proof.
  intros Hn. unfold get_digits_arithmetic. by rewrite digits_while_done.
Qed.

Lemma from_digits_snoc ds d :
  from_digits (ds ++ [d]) = from_digits ds * 10 + d.
Proof. unfold from_digits. by rewrite foldl_snoc. Qed.

Lemma from_digits_pos ds :
  Forall is_digit ds → (∀ rest, ds ≠ 0 :: rest) → ds ≠ [] →
  from_digits ds > 0.
Proof.
  induction ds as [|d ds IH] using rev_ind; [done|]. intros Hall Hhd _.
  apply Forall_app in Hall as [Hall Hd%Forall_inv].
  rewrite from_digits_snoc. unfold is_digit in Hd.
  destruct ds as [|d' ds'].
  - change (from_digits []) with 0. specialize (Hhd []). simpl in Hhd.
    assert (d ≠ 0) by congruence. lia.
  - assert (from_digits (d' :: ds') > 0); [|lia].
    apply IH; [done| |done].
    intros rest [= -> ->]. by apply (Hhd (rest ++ [d])).
Qed.

(** X10.  The two implementations benchmarked against each other return the
    same vector on every input. *)
Theorem get_digits_agree n :
  get_digits_idiomatic n = get_digits_arithmetic n.
Proof.
  unfold get_digits_idiomatic, get_digits_arithmetic.
  by rewrite collect_is_while.
Qed.

(** X11.  Reading the digits back gives the number: the vector returned for [n]
    writes [n] in base 10, most significant digit first. *)
Theorem from_get_digits n :
  0 ≤ n → from_digits (get_digits_arithmetic n) = n.
Proof.
  induction n as [n Hn|n Hn IH] using div10_ind; intros H0.
  - rewrite get_digits_zero by done. change (from_digits []) with 0. lia.
  - rewrite get_digits_pos, from_digits_snoc by done.
    rewrite IH by (apply Z.div_pos; lia).
    pose proof (Z.div_mod n 10). lia.
Qed.

(** X12.  The vector is the canonical decimal numeral: every element is a digit
    0..9; it is empty exactly for 0 (not [[0]]); for a positive number
    it starts with a non-zero digit. *)
Theorem get_digits_canonical n :
  0 ≤ n →
  Forall is_digit (get_digits_arithmetic n) ∧
  (get_digits_arithmetic n = [] ↔ n = 0) ∧
  (0 < n → ∃ d rest, get_digits_arithmetic n = d :: rest ∧ 1 ≤ d).
Proof.
  intros H0.
  cut (Forall is_digit (get_digits_arithmetic n) ∧
       (get_digits_arithmetic n = [] ↔ ¬ n > 0) ∧
       (n > 0 → ∃ d rest, get_digits_arithmetic n = d :: rest ∧ 1 ≤ d)).
  { intros (H1 & H2 & H3). split; [done|]. split; [|intros; apply H3; lia].
    rewrite H2. lia. }
  clear H0.
  induction n as [n Hn|n Hn (IH1 & IH2 & IH3)] using div10_ind.
  - rewrite get_digits_zero by done.
    split; [constructor|]. split; [done|lia].
  - rewrite get_digits_pos by done. split; [|split].
    + apply Forall_app. split; [done|].
      apply Forall_singleton. unfold is_digit.
      pose proof (Z.mod_pos_bound n 10). lia.
    + split; [|done]. intros Heq. by apply app_nil in Heq as [_ ?].
    + intros _. destruct (decide (n / 10 > 0)) as [Hq|Hq].
      * destruct (IH3 Hq) as (d & rest & -> & Hd).
        by exists d, (rest ++ [n mod 10]).
      * rewrite (proj2 IH2 Hq). exists (n mod 10), []. split; [done|].
        assert (n / 10 = 0) by (pose proof (Z.div_pos n 10); lia).
        pose proof (Z.div_mod n 10). lia.
Qed.

(** X13.  A positive number with [k] digits in the vector lies between
    [10^(k-1)] and [10^k]; a [u32] therefore gives at most 10 digits. *)
Theorem get_digits_length n :
  n > 0 →
  let k := Z.of_nat (length (get_digits_arithmetic n)) in
  10 ^ (k - 1) ≤ n < 10 ^ k ∧ (n < 2 ^ 32 → k ≤ 10).
Proof.
  intros Hpos k.
  assert (Hk : 10 ^ (k - 1) ≤ n < 10 ^ k).
  { subst k. revert Hpos.
    induction n as [n Hn|n Hn IH] using div10_ind; [done|]. intros _.
    - rewrite get_digits_pos by done. rewrite length_app. simpl.
      pose proof (Z.div_mod n 10). pose proof (Z.mod_pos_bound n 10).
      destruct (decide (n / 10 > 0)) as [Hq|Hq].
      + specialize (IH Hq).
        set (k := length (get_digits_arithmetic (n / 10))) in *.
        assert (1 ≤ Z.of_nat k).
        { destruct k; [|lia]. simpl in IH. lia. }
        replace (Z.of_nat (k + 1) - 1) with (Z.succ (Z.of_nat k - 1))
          by lia.
        replace (Z.of_nat (k + 1)) with (Z.succ (Z.of_nat k)) by lia.
        rewrite !Z.pow_succ_r by lia. lia.
      + rewrite get_digits_zero by done. simpl.
        assert (n / 10 = 0) by (pose proof (Z.div_pos n 10); lia).
        change (10 ^ (1 - 1)) with 1. change (10 ^ 1) with 10. lia. }
  split; [done|]. intros Hu.
  destruct (Z.le_gt_cases k 10) as [|Hgt]; [done|].
  assert (10 ^ 10 ≤ 10 ^ (k - 1)) by (apply Z.pow_le_mono_r; lia).
  assert (2 ^ 32 < 10 ^ 10) by done. lia.
Qed.

Lemma from_digits_nonneg ds : Forall is_digit ds → 0 ≤ from_digits ds.
Proof.
  induction ds as [|d ds IH] using rev_ind; intros Hall; [done|].
  apply Forall_app in Hall as [Hall Hd%Forall_inv].
  rewrite from_digits_snoc. unfold is_digit in Hd.
  specialize (IH Hall). lia.
Qed.

Lemma get_from_digits_any ds :
  Forall is_digit ds → (∀ rest, ds ≠ 0 :: rest) →
  get_digits_arithmetic (from_digits ds) = ds.
Proof.
  induction ds as [|d ds IH] using rev_ind; intros Hall Hhd.
  - by rewrite get_digits_zero.
  - pose proof Hall as Hall'.
    apply Forall_app in Hall as [Hall Hd%Forall_inv].
    unfold is_digit in Hd.
    assert (Hpos : from_digits (ds ++ [d]) > 0).
    { apply from_digits_pos; [done..|]. by destruct ds. }
    rewrite get_digits_pos by done. rewrite from_digits_snoc.
    replace ((from_digits ds * 10 + d) / 10) with (from_digits ds)
      by (apply (Z.div_unique _ 10 _ d); lia).
    replace ((from_digits ds * 10 + d) mod 10) with d
      by (apply (Z.mod_unique _ 10 (from_digits ds)); lia).
    rewrite IH; [done|done|]. intros rest ->. by apply (Hhd (rest ++ [d])).
Qed.

(** X14.  The other way round: a list of digits without a leading zero
    that writes a number below [2^32] writes a [u32], and is the vector
    both functions return for that number.  Together with
    [from_get_digits], the [u32] numbers and their vectors correspond one
    to one. *)
Theorem get_from_digits ds :
  Forall is_digit ds → (∀ rest, ds ≠ 0 :: rest) →
  from_digits ds < 2 ^ 32 →
  0 ≤ from_digits ds < 2 ^ 32 ∧
  get_digits_arithmetic (from_digits ds) = ds ∧
  get_digits_idiomatic (from_digits ds) = ds.
Proof.
  intros Hall Hhd Hu32.
  split; [split; [by apply from_digits_nonneg|done]|].
  rewrite get_digits_agree. split; by apply get_from_digits_any.
Qed.

End Digits.

(** ** Fibonacci numbers in u32 *)

Section Fibonacci.

Lemma fib_SS n : fib (S (S n)) = fib (S n) + fib n.
Proof. done. Qed.

Lemma fib_pair_spec n : fib_pair n = (fib n, fib (S n)).
Proof.
  induction n as [|n IH]; [done|].
  cbn [fib_pair]. rewrite IH, (fib_SS n). f_equal. lia.
Qed.

Lemma fib_fast n : fib n = (fib_pair n).1.
Proof. by rewrite fib_pair_spec. Qed.

Lemma fib_47 : fib 47 = 2971215073.
Proof. rewrite fib_fast. by vm_compute. Qed.

Lemma fib_48 : fib 48 = 4807526976.
Proof. rewrite fib_fast. by vm_compute. Qed.

Lemma fib_nonneg n : 0 ≤ fib n ∧ 0 ≤ fib (S n).
Proof.
  induction n as [|n [IH1 IH2]]; [simpl; lia|].
  split; [done|]. rewrite fib_SS. lia.
Qed.

Lemma fib_mono_S n : fib n ≤ fib (S n).
Proof.
  destruct n as [|n]; [simpl; lia|]. rewrite fib_SS.
  pose proof (fib_nonneg n). lia.
Qed.

Lemma fib_mono (n m : nat) : (n ≤ m)%nat → fib n ≤ fib m.
Proof.
  induction 1 as [|m _ IH]; [done|]. pose proof (fib_mono_S m). lia.
Qed.

(** One unfolding of the recursive arm. *)
Lemma fibonacci_SS_eq p n :
  fibonacci p (S (S n)) =
    match fibonacci p (S n) with
    | Some a =>
        match fibonacci p n with
        | Some b => add_u32 p a b
        | None => None
        end
    | None => None
    end.
Proof. done. Qed.

Lemma fibonacci_SS p n a b :
  fibonacci p (S n) = Some a → fibonacci p n = Some b →
  fibonacci p (S (S n)) = add_u32 p a b.
Proof. intros Ha Hb. by rewrite fibonacci_SS_eq, Ha, Hb. Qed.

Lemma fibonacci_exact_pair p (n : nat) :
  (S n ≤ 47)%nat →
  fibonacci p n = Some (fib n) ∧ fibonacci p (S n) = Some (fib (S n)).
Proof.
  induction n as [|n IH]; intros Hn; [done|].
  destruct IH as [IH1 IH2]; [lia|]. split; [done|].
  rewrite (fibonacci_SS _ _ _ _ IH2 IH1). unfold add_u32.
  rewrite <- fib_SS.
  pose proof (fib_mono (S (S n)) 47 Hn). pose proof fib_47 as H47.
  destruct (decide (fib (S (S n)) < 2 ^ 32)); [done|lia].
Qed.

(** X15.  Up to [n = 47] no addition overflows: in either build the function
    returns the Fibonacci number itself, which fits in 32 bits. *)
Theorem fibonacci_exact p (n : nat) :
  (n ≤ 47)%nat → fibonacci p n = Some (fib n) ∧ 0 ≤ fib n < 2 ^ 32.
Proof.
  intros Hn. split.
  - destruct n as [|n]; [done|]. by apply fibonacci_exact_pair.
  - pose proof (fib_mono n 47 Hn). pose proof fib_47 as H47.
    pose proof (fib_nonneg n). lia.
Qed.

(** X16.  From [n = 48] on the Fibonacci number no longer fits in 32 bits, and
    with overflow checks the call panics. *)
Theorem fibonacci_debug_overflow (n : nat) :
  (48 ≤ n)%nat → fibonacci Debug n = None ∧ 2 ^ 32 ≤ fib n.
Proof.
  intros Hn. split.
  - induction Hn as [|m Hm IH].
    + destruct (fibonacci_exact_pair Debug 46 ltac:(lia)) as [H46 H47].
      rewrite (fibonacci_SS _ _ _ _ H47 H46). unfold add_u32.
      rewrite <- fib_SS. pose proof fib_48 as H48.
      destruct (decide (fib 48 < 2 ^ 32)); [lia|done].
    + destruct m as [|m]; [lia|]. by rewrite fibonacci_SS_eq, IH.
  - pose proof (fib_mono 48 n Hn). pose proof fib_48 as H48. lia.
Qed.

(** X17.  Without overflow checks the call never fails, and for every [n] it
    returns the Fibonacci number modulo [2^32]. *)
Theorem fibonacci_release_wraps (n : nat) :
  fibonacci Release n = Some (fib n mod 2 ^ 32).
Proof.
  cut (fibonacci Release n = Some (fib n mod 2 ^ 32) ∧
       fibonacci Release (S n) = Some (fib (S n) mod 2 ^ 32));
    [by intros []|].
  induction n as [|n [IH1 IH2]]; [done|]. split; [done|].
  rewrite (fibonacci_SS _ _ _ _ IH2 IH1), fib_SS. unfold add_u32.
  pose proof (Z.mod_pos_bound (fib (S n)) (2 ^ 32) ltac:(lia)).
  pose proof (Z.mod_pos_bound (fib n) (2 ^ 32) ltac:(lia)).
  destruct (decide _) as [Hlt|Hge].
  - f_equal. rewrite (Z.add_mod (fib (S n)) (fib n)) by lia.
    symmetry. apply Z.mod_small. lia.
  - f_equal. symmetry. apply Z.add_mod. lia.
Qed.

End Fibonacci.

(** ** Merging dictionaries without None *)

Section Merge.
Context `{Countable K} {V : Type}.
Implicit Types (lhs rhs d : gmap K (pyobj V)) (key : K).

Lemma drop_none_lookup d key :
  drop_none d !! key =
    match d !! key with
    | Some (PyVal v) => Some (PyVal v)
    | _ => None
    end.
Proof.
  unfold drop_none. destruct (d !! key) as [[|v]|] eqn:Hk.
  - apply map_lookup_filter_None. right. intros x Hx HP.
    rewrite Hk in Hx. injection Hx as <-. exact HP.
  - by apply map_lookup_filter_Some.
  - apply map_lookup_filter_None. by left.
Qed.

Lemma merge_lookup_drop lhs rhs key :
  merge_without_none lhs rhs !! key =
    match drop_none rhs !! key with
    | Some v => Some v
    | None => drop_none lhs !! key
    end.
Proof.
  unfold merge_without_none, dict_or. rewrite lookup_union.
  by destruct (drop_none rhs !! key), (drop_none lhs !! key).
Qed.

(** X18.  What the merged dictionary holds at a key: the right operand's value
    if that is not [None]; otherwise the left operand's value if that is
    not [None]; otherwise the key is absent.  So a [None] on the right
    never overwrites a value on the left, while any other value does. *)
Theorem merge_lookup lhs rhs key :
  merge_without_none lhs rhs !! key =
    match rhs !! key with
    | Some (PyVal v) => Some (PyVal v)
    | _ => match lhs !! key with
           | Some (PyVal v) => Some (PyVal v)
           | _ => None
           end
    end.
Proof.
  rewrite merge_lookup_drop, !drop_none_lookup.
  by destruct (rhs !! key) as [[|?]|].
Qed.

(** X19.  The merged dictionary holds no [None]: a key is present only with a
    value that is not [None], and that value comes from one of the two
    operands. *)
Theorem merge_no_none lhs rhs key val :
  merge_without_none lhs rhs !! key = Some val →
  is_not_None val ∧ (rhs !! key = Some val ∨ lhs !! key = Some val).
Proof.
  rewrite merge_lookup.
  destruct (rhs !! key) as [[|v]|], (lhs !! key) as [[|w]|];
    intros [= <-]; simpl; eauto.
Qed.

(** X20.  Merging is associative: three dictionaries merge to the same result
    however the two calls are nested. *)
Theorem merge_assoc d1 d2 d3 :
  merge_without_none (merge_without_none d1 d2) d3 =
  merge_without_none d1 (merge_without_none d2 d3).
Proof.
  apply map_eq. intros key. rewrite !merge_lookup.
  by destruct (d3 !! key) as [[|?]|], (d2 !! key) as [[|?]|],
       (d1 !! key) as [[|?]|].
Qed.

(** X21.  Merging the same update twice changes nothing more, and merging a
    dictionary with itself only removes its [None] entries. *)
Theorem merge_idempotent lhs rhs :
  merge_without_none (merge_without_none lhs rhs) rhs =
    merge_without_none lhs rhs ∧
  merge_without_none lhs lhs = drop_none lhs.
Proof.
  split; apply map_eq; intros key;
    rewrite ?merge_lookup, ?drop_none_lookup.
  - by destruct (rhs !! key) as [[|?]|], (lhs !! key) as [[|?]|].
  - by destruct (lhs !! key) as [[|?]|].
Qed.

(** X22.  On dictionaries that hold no [None] the function is the plain union
    [lhs | rhs]. *)
Theorem merge_is_union_without_none lhs rhs :
  (∀ key, lhs !! key ≠ Some PyNone) →
  (∀ key, rhs !! key ≠ Some PyNone) →
  merge_without_none lhs rhs = dict_or lhs rhs.
Proof.
  intros Hl Hr. apply map_eq. intros key. rewrite merge_lookup.
  unfold dict_or. rewrite lookup_union.
  specialize (Hl key). specialize (Hr key).
  by destruct (rhs !! key) as [[|?]|], (lhs !! key) as [[|?]|].
Qed.

End Merge.

(** ** Validating an input field *)

Section Validate.
Import Regex.

Local Abbreviation alnum_ranges :=
  [("A", "Z"); ("a", "z"); ("0", "9")]%char.

Local Abbreviation alnum_regex :=
  (Seq Bol (Seq (Star (Class alnum_ranges)) Eol)).

Lemma in_class_alnum c :
  in_class alnum_ranges c = true ↔ alnum_code (nat_of_ascii c).
Proof.
  unfold in_class, in_range, alnum_code. cbn [existsb fst snd].
  change (nat_of_ascii "A") with 65%nat.
  change (nat_of_ascii "Z") with 90%nat.
  change (nat_of_ascii "a") with 97%nat.
  change (nat_of_ascii "z") with 122%nat.
  change (nat_of_ascii "0") with 48%nat.
  change (nat_of_ascii "9") with 57%nat.
  rewrite orb_false_r, !orb_true_iff, !andb_true_iff, !Nat.leb_le. tauto.
Qed.

Lemma matches_at_In r p : matches_at r p = true ↔ ∃ q, In q (ends r p).
Proof.
  unfold matches_at. destruct (ends r p) as [|q l].
  - split; [done|]. by intros [q []].
  - split; [|done]. intros _. exists q. by left.
Qed.

Lemma star_ends_class_cons fuel n c rest :
  star_ends (ends (Class alnum_ranges)) (S fuel) (n, String c rest) =
    (n, String c rest)
      :: (if in_class alnum_ranges c
          then star_ends (ends (Class alnum_ranges)) fuel (S n, rest)
          else []).
Proof.
  cbn [star_ends]. f_equal.
  change (ends (Class alnum_ranges) (n, String c rest))
    with (if in_class alnum_ranges c then [(S n, rest)] else []).
  destruct (in_class alnum_ranges c); [|done].
  cbn [flat_map fst]. destruct (decide (n < S n)%nat); [|lia].
  apply app_nil_r.
Qed.

(** The star over the class reaches the end of the subject exactly when
    every character from the position on is in the class. *)
Lemma star_class_reaches_end s :
  ∀ (n fuel : nat), (String.length s ≤ fuel)%nat →
    (∃ q, In q (star_ends (ends (Class alnum_ranges)) fuel (n, s)) ∧
          q.2 = EmptyString) ↔
    Forall alnum_code (char_codes s).
Proof.
  induction s as [|c rest IH]; intros n fuel Hfuel.
  - split; [constructor|]. intros _. exists (n, EmptyString).
    split; [|done]. destruct fuel; by left.
  - destruct fuel as [|fuel]; [simpl in Hfuel; lia|].
    rewrite star_ends_class_cons. cbn [char_codes]. rewrite Forall_cons.
    rewrite <- in_class_alnum.
    destruct (in_class alnum_ranges c) eqn:Hc.
    + rewrite <- (IH (S n) fuel) by (simpl in Hfuel; lia). split.
      * intros (q & [<-|Hq] & Hend); [discriminate Hend|].
        split; [done|]. by exists q.
      * intros [_ (q & Hq & Hend)]. exists q. split; [by right|done].
    + split; [|by intros [? _]].
      intros (q & [<-|[]] & Hend). discriminate Hend.
Qed.

Lemma not_at_start s :
  ∀ n : nat, n ≠ 0%nat → existsb (matches_at alnum_regex) (starts n s) = false.
Proof.
  induction s as [|c rest IH]; intros n Hn; cbn [starts existsb].
  - unfold matches_at. cbn [ends fst].
    by destruct (decide (n = 0%nat)).
  - rewrite IH by done. unfold matches_at. cbn [ends fst].
    by destruct (decide (n = 0%nat)).
Qed.

Lemma test_alnum_regex input :
  test alnum_regex input = true ↔ Forall alnum_code (char_codes input).
Proof.
  rewrite <- (star_class_reaches_end input 0 (String.length input)) by done.
  assert (Htest : test alnum_regex input = matches_at alnum_regex (0%nat, input)).
  { unfold test. destruct input as [|c rest]; cbn [starts existsb].
    - apply orb_false_r.
    - rewrite not_at_start by done. apply orb_false_r. }
  rewrite Htest, matches_at_In. cbn [ends fst snd flat_map].
  destruct (decide (0 = 0)%nat) as [_|]; [|done].
  cbn [flat_map]. rewrite app_nil_r. split.
  - intros [q Hq]. apply in_flat_map in Hq as (q' & Hq' & Hin).
    exists q'. split; [done|]. by destruct (q'.2).
  - intros (q & Hq & Hend). exists q. apply in_flat_map.
    exists q. split; [done|]. rewrite Hend. by left.
Qed.

(** X23.  [validateInput] returns ["Valid input"] exactly when every character
    of the input is an ASCII letter or digit, the empty input included;
    on any other input it throws the error with the message of the
    article. *)
Theorem validateInput_spec input :
  (Forall alnum_code (char_codes input) →
     validateInput input = Return "Valid input") ∧
  (¬ Forall alnum_code (char_codes input) →
     validateInput input =
       Throw "This input field cannot contain anything other than lowercase, uppercase or numerical characters.").
Proof.
  unfold validateInput. cbv zeta.
  pose proof (test_alnum_regex input) as Htest.
  destruct (test alnum_regex input); cbn [negb]; split; try done.
  - intros Hno. destruct Hno. by apply Htest.
  - intros Hall. apply Htest in Hall. done.
Qed.

End Validate.

(** ** The minimalist logger *)

Section LoggerFacts.
Import Logger.

Lemma logger_production k now message out :
  logger k (Some "production") now message out = out.
Proof. by destruct k. Qed.

Lemma logger_elsewhere k NODE_ENV now message out :
  NODE_ENV ≠ Some "production" →
  logger k NODE_ENV now message out =
    out ++ [(channel k, "[" +:+ label k +:+ "] " +:+ now +:+ ": " +:+ message)].
Proof.
  intros Henv.
  destruct k; cbn [logger]; unfold debugMessage, logMessage, errorMessage,
    warnMessage; by destruct (decide (NODE_ENV ≠ Some "production")).
Qed.

(** X24.  In production nothing is ever written: whatever the program logs,
    through whichever of the four methods, the console stays as it was. *)
Theorem logger_silent_in_production calls out :
  run (Some "production") calls out = out.
Proof.
  revert out. induction calls as [|c calls IH]; intros out; [done|].
  unfold run in *. cbn [foldl]. by rewrite logger_production.
Qed.

(** X25.  Anywhere else, the variable unset included, every call writes exactly
    one line, after the lines already there and in the order of the calls;
    the line goes to the console method of the key used and reads
    [[LABEL] timestamp: message]. *)
Theorem logger_writes_elsewhere NODE_ENV calls out :
  NODE_ENV ≠ Some "production" →
  ∃ lines,
    run NODE_ENV calls out = out ++ lines ∧
    length lines = length calls ∧
    ∀ (i : nat) c, calls !! i = Some c →
      lines !! i =
        Some (channel (method c),
              "[" +:+ label (method c) +:+ "] " +:+ now c +:+ ": "
                +:+ message c).
Proof.
  intros Henv. revert out.
  induction calls as [|c calls IH]; intros out.
  - exists []. by rewrite app_nil_r.
  - unfold run in *. cbn [foldl]. rewrite logger_elsewhere by done.
    destruct (IH (out ++ [(channel (method c),
                "[" +:+ label (method c) +:+ "] " +:+ now c +:+ ": "
                  +:+ message c)])) as (lines & -> & Hlen & Hline).
    eexists (_ :: lines). rewrite <- app_assoc. split; [done|].
    split; [simpl; by rewrite Hlen|].
    intros [|i] c' Hc'; [by injection Hc' as <-|]. by apply Hline.
Qed.

End LoggerFacts.

(** ** The Asana task content *)

Section AsanaFacts.
Import Asana.
Variable generate_asana_task_html : InternalCampaign → string.

Lemma append_nil_l (s : string) : "" +:+ s = s.
Proof. done. Qed.

Lemma append_cons c (a s : string) : String c a +:+ s = String c (a +:+ s).
Proof. done. Qed.

Lemma append_nil_r (s : string) : s +:+ "" = s.
Proof.
  induction s as [|c s IH]; [done|]. by rewrite append_cons, IH.
Qed.

Lemma append_assoc (a b c : string) : (a +:+ b) +:+ c = a +:+ (b +:+ c).
Proof.
  induction a as [|x a IH]; [done|]. by rewrite !append_cons, IH.
Qed.

Lemma prefix_app (p s : string) : String.prefix p (p +:+ s) = true.
Proof.
  induction p as [|c p IH]; [by destruct s|].
  rewrite append_cons. cbn [String.prefix].
  destruct (Ascii.ascii_dec c c); [exact IH|congruence].
Qed.

Lemma str_in_head (p s : string) : str_in p (p +:+ s) = true.
Proof.
  destruct (p +:+ s) eqn:Heq; cbn [str_in]; rewrite <- Heq, prefix_app;
    done.
Qed.

Lemma str_in_app (a p s : string) : str_in p (a +:+ p +:+ s) = true.
Proof.
  induction a as [|c a IH].
  - rewrite append_nil_l. apply str_in_head.
  - rewrite append_cons. cbn [str_in]. rewrite IH. apply orb_true_r.
Qed.

Lemma str_in_end (a p : string) : str_in p (a +:+ p) = true.
Proof.
  pose proof (str_in_app a p "") as Hin. by rewrite append_nil_r in Hin.
Qed.

(** X26.  With the fix, every one of the three task types gives a task whose
    title names the campaign: it contains the ad title and the Promo ID,
    whatever they are; the content is the generated HTML.  Any other
    task type gives [None]. *)
Theorem fixed_title_names_campaign task_type campaign :
  match generate_asana_task_content_fixed generate_asana_task_html
          task_type campaign with
  | Some d =>
      task_type ∈ ["stop"; "create"; "delete"] ∧
      str_in (pid campaign) (title d) = true ∧
      str_in (adTitle campaign) (title d) = true ∧
      content d = generate_asana_task_html campaign
  | None => task_type ∉ ["stop"; "create"; "delete"]
  end.
Proof.
  unfold generate_asana_task_content_fixed, generate_asana_task_content.
  repeat case_decide; subst; cbn [title content].
  - split; [apply list_elem_of_here|]. split; [|split; [|done]].
    + rewrite <- !append_assoc. apply str_in_end.
    + apply str_in_app.
  - split; [apply list_elem_of_further, list_elem_of_here|].
    split; [|split; [|done]].
    + rewrite <- !append_assoc. apply str_in_end.
    + apply str_in_app.
  - split; [do 2 apply list_elem_of_further; apply list_elem_of_here|].
    split; [|split; [|done]].
    + rewrite <- !append_assoc. apply str_in_end.
    + apply str_in_app.
  - rewrite !not_elem_of_cons. split_and!; [done..|]. apply not_elem_of_nil.
Qed.

(** X27.  The bug test tells the two versions apart: it passes on the fixed
    function for every campaign, and it fails on the listed function for
    every campaign whose Promo ID does not happen to occur in the text of
    the template. *)
Theorem bug_test_detects campaign :
  str_in (pid campaign)
    ":octagonal_sign: STOP {campaign.adTitle} - {campaign.pid}" = false →
  bug_test (generate_asana_task_content generate_asana_task_html)
    campaign = false ∧
  bug_test (generate_asana_task_content_fixed generate_asana_task_html)
    campaign = true.
Proof.
  intros Hpid. unfold bug_test, generate_asana_task_content_fixed,
    generate_asana_task_content.
  destruct (decide ("stop" = "stop")); [|done]. cbn [title].
  split; [done|]. rewrite <- !append_assoc. apply str_in_end.
Qed.

End AsanaFacts.

(** ** The further properties at sample inputs *)

(** [getSlice(1, 3, [a, b, c])] is [[b, c]]. *)
Lemma getSlice_in_range_witness :
  store_aligned !! 0%nat = Some abc ∧ 0 ≤ 1 ≤ 3 ∧ 3 ≤ 3 ∧
  ∃ out,
    out_getSlice store_aligned 1 3 0 = Some out ∧
    Z.of_nat (length out) = 3 - 1 ∧
    (∀ i : nat, Z.of_nat i < 3 - 1 →
       out !! i = abc !! (Z.to_nat 1 + i)%nat) ∧
    abc = take (Z.to_nat 1) abc ++ out ++ drop (Z.to_nat 3) abc.
Proof.
  split; [reflexivity|]. split; [lia|]. split; [lia|].
  apply (getSlice_in_range store_aligned 0%nat abc 1 3);
    [reflexivity | lia | simpl; lia].
Defined.

(** Indices far outside the array. *)
Lemma getSlice_total_sublist_witness :
  store_aligned !! 0%nat = Some abc ∧
  ∃ r h' out,
    getSlice (-5) 100 0 store_aligned = Some (r, h') ∧
    h' !! r = Some out ∧
    (∃ pre post, abc = pre ++ out ++ post) ∧
    store_aligned !! r = None ∧ h' !! 0%nat = Some abc.
Proof.
  split; [reflexivity|].
  apply (getSlice_total_sublist store_aligned 0%nat abc (-5) 100).
  reflexivity.
Defined.

(** The pitfall of the article: [getSlice(0, 2, myArray)] on three
    elements is not the whole array. *)
Lemma getSlice_whole_iff_witness :
  store_aligned !! 0%nat = Some abc ∧ abc ≠ [] ∧
  (out_getSlice store_aligned 0 2 0 = Some abc ↔ 3 ≤ 2) ∧
  (out_getSlice store_aligned 0 3 0 = Some abc ↔ 3 ≤ 3).
Proof.
  split; [reflexivity|]. split; [discriminate|].
  split; apply (getSlice_whole_iff store_aligned 0%nat abc);
    reflexivity || discriminate.
Defined.


(** [getSlice(0, 1, getSlice(1, 3, arr))] is [getSlice(1, 2, arr)]. *)
Lemma getSlice_compose_witness :
  store_aligned !! 0%nat = Some abc ∧
  0 ≤ 1 ≤ 3 ∧ 3 ≤ 3 ∧ 0 ≤ 0 ≤ 1 ∧ 1 ≤ 3 - 1 ∧
  ∃ r h',
    getSlice 1 3 0 store_aligned = Some (r, h') ∧
    out_getSlice h' 0 1 r = out_getSlice store_aligned (1 + 0) (1 + 1) 0 ∧
    is_Some (out_getSlice h' 0 1 r).
Proof.
  split; [reflexivity|]. do 4 (split; [lia|]).
  apply (getSlice_compose store_aligned 0%nat abc 0 1 1 3);
    [reflexivity | lia | simpl; lia | lia | lia].
Defined.

Lemma disect_narrowing_witness :
  store_aligned !! 0%nat = Some abc ∧
  store_aligned !! 1%nat = Some [Int 1; Int 2; Int 3] ∧ 1 ≤ 2 ∧
  ∃ r h' lo do,
    disectChartData 0 1 2 store_aligned = Some (r, h') ∧
    out_labels store_aligned 0 1 1 = Some lo ∧
    out_data store_aligned 0 1 1 = Some do ∧
    out_labels h' (labels r) (data r) 1 = Some lo ∧
    out_data h' (labels r) (data r) 1 = Some do.
Proof.
  do 2 (split; [reflexivity|]). split; [lia|].
  apply (disect_narrowing store_aligned 0%nat 1%nat
           abc [Int 1; Int 2; Int 3] 1 2); [reflexivity|reflexivity|lia].
Defined.

Lemma disect_monotone_witness :
  store_aligned !! 0%nat = Some abc ∧
  store_aligned !! 1%nat = Some [Int 1; Int 2; Int 3] ∧ 1 ≤ 2 ∧
  ∃ lo do lo' do',
    out_labels store_aligned 0 1 1 = Some lo ∧
    out_data store_aligned 0 1 1 = Some do ∧
    out_labels store_aligned 0 1 2 = Some lo' ∧
    out_data store_aligned 0 1 2 = Some do' ∧
    (∃ pre, lo' = pre ++ lo) ∧ (∃ pre, do' = pre ++ do).
Proof.
  do 2 (split; [reflexivity|]). split; [lia|].
  apply (disect_monotone store_aligned 0%nat 1%nat
           abc [Int 1; Int 2; Int 3] 1 2); [reflexivity|reflexivity|lia].
Defined.

Lemma disect_alignment_witness :
  store_aligned !! 0%nat = Some abc ∧
  store_aligned !! 1%nat = Some [Int 1; Int 2; Int 3] ∧
  length abc = length [Int 1; Int 2; Int 3] ∧
  ∃ (k : nat) lo do,
    out_labels store_aligned 0 1 2 = Some lo ∧
    out_data store_aligned 0 1 2 = Some do ∧
    lo = drop k abc ∧ do = drop k [Int 1; Int 2; Int 3] ∧
    length lo = length do.
Proof.
  do 3 (split; [reflexivity|]).
  apply (disect_alignment store_aligned 0%nat 1%nat
           abc [Int 1; Int 2; Int 3] 2); reflexivity.
Defined.

Lemma disect_keeps_latest_witness :
  store_ragged !! 0%nat = Some abc ∧
  store_ragged !! 1%nat = Some [Int 1; Int 2] ∧ 1 ≤ 1 ∧
  ∃ lo do,
    out_labels store_ragged 0 1 1 = Some lo ∧
    out_data store_ragged 0 1 1 = Some do ∧
    (abc ≠ [] → last lo = last abc ∧ is_Some (last lo)) ∧
    ([Int 1; Int 2] ≠ [] →
       last do = last [Int 1; Int 2] ∧ is_Some (last do)).
Proof.
  do 2 (split; [reflexivity|]). split; [lia|].
  apply (disect_keeps_latest store_ragged 0%nat 1%nat
           abc [Int 1; Int 2] 1); [reflexivity|reflexivity|lia].
Defined.

(** The number of the unit tests, 20. *)
Lemma from_get_digits_witness :
  0 ≤ 20 ∧ from_digits (get_digits_arithmetic 20) = 20.
Proof. split; [lia|]. apply (from_get_digits 20). lia. Defined.

Lemma get_digits_canonical_witness :
  0 ≤ 20 ∧
  Forall is_digit (get_digits_arithmetic 20) ∧
  (get_digits_arithmetic 20 = [] ↔ 20 = 0) ∧
  (0 < 20 → ∃ d rest, get_digits_arithmetic 20 = d :: rest ∧ 1 ≤ d).
Proof. split; [lia|]. apply (get_digits_canonical 20). lia. Defined.

Lemma get_digits_length_witness :
  20 > 0 ∧
  let k := Z.of_nat (length (get_digits_arithmetic 20)) in
  10 ^ (k - 1) ≤ 20 < 10 ^ k ∧ (20 < 2 ^ 32 → k ≤ 10).
Proof. split; [lia|]. apply (get_digits_length 20). lia. Defined.

Lemma get_from_digits_witness :
  Forall is_digit [2; 0] ∧ (∀ rest, [2; 0] ≠ 0 :: rest) ∧
  from_digits [2; 0] < 2 ^ 32 ∧
  0 ≤ from_digits [2; 0] < 2 ^ 32 ∧
  get_digits_arithmetic (from_digits [2; 0]) = [2; 0] ∧
  get_digits_idiomatic (from_digits [2; 0]) = [2; 0].
Proof.
  assert (Hd : Forall is_digit [2; 0]).
  { repeat constructor; unfold is_digit; lia. }
  assert (Hz : ∀ rest, [2; 0] ≠ 0 :: rest) by (intros rest; discriminate).
  assert (Hu : from_digits [2; 0] < 2 ^ 32) by reflexivity.
  split; [exact Hd|]. split; [exact Hz|]. split; [exact Hu|].
  exact (get_from_digits [2; 0] Hd Hz Hu).
Defined.

Lemma fibonacci_exact_witness :
  (10 ≤ 47)%nat ∧
  fibonacci Release 10 = Some (fib 10) ∧ 0 ≤ fib 10 < 2 ^ 32.
Proof. split; [lia|]. apply (fibonacci_exact Release 10). lia. Defined.

Lemma fibonacci_debug_overflow_witness :
  (48 ≤ 48)%nat ∧ fibonacci Debug 48 = None ∧ 2 ^ 32 ≤ fib 48.
Proof. split; [lia|]. apply (fibonacci_debug_overflow 48). lia. Defined.

(** The first assertion of the article. *)
Lemma merge_no_none_witness :
  merge_without_none
    ({["testKey" := PyVal "test val"]} : gmap string (pyobj string))
    {["testKey" := PyNone]} !! "testKey" = Some (PyVal "test val") ∧
  is_not_None (PyVal "test val" : pyobj string) ∧
  (({["testKey" := PyNone]} : gmap string (pyobj string)) !! "testKey" =
     Some (PyVal "test val") ∨
   ({["testKey" := PyVal "test val"]} : gmap string (pyobj string))
     !! "testKey" = Some (PyVal "test val")).
Proof.
  assert (Hm : merge_without_none
    ({["testKey" := PyVal "test val"]} : gmap string (pyobj string))
    {["testKey" := PyNone]} !! "testKey" = Some (PyVal "test val"))
    by (vm_compute; reflexivity).
  split; [exact Hm|].
  exact (merge_no_none _ _ _ _ Hm).
Defined.

Lemma merge_is_union_without_none_witness :
  (∀ key, ({["a" := PyVal 1]} : gmap string (pyobj Z)) !! key
            ≠ Some PyNone) ∧
  (∀ key, ({["a" := PyVal 2]} : gmap string (pyobj Z)) !! key
            ≠ Some PyNone) ∧
  merge_without_none
    ({["a" := PyVal 1]} : gmap string (pyobj Z)) {["a" := PyVal 2]} =
  dict_or {["a" := PyVal 1]} {["a" := PyVal 2]}.
Proof.
  assert (H1 : ∀ (v : Z) key,
    ({["a" := PyVal v]} : gmap string (pyobj Z)) !! key ≠ Some PyNone).
  { intros v key. rewrite lookup_singleton. by case_decide. }
  split; [apply H1|]. split; [apply H1|].
  apply merge_is_union_without_none; apply H1.
Defined.

(** The two inputs of the article. *)
Lemma validateInput_spec_witness :
  Forall alnum_code (char_codes "Test123") ∧
  validateInput "Test123" = Return "Valid input" ∧
  ¬ Forall alnum_code (char_codes "Test@123") ∧
  validateInput "Test@123" =
    Throw "This input field cannot contain anything other than lowercase, uppercase or numerical characters.".
Proof.
  assert (Hok : Forall alnum_code (char_codes "Test123")).
  { change (char_codes "Test123")
      with [84; 101; 115; 116; 49; 50; 51]%nat.
    repeat (apply Forall_cons_2; [unfold alnum_code; lia|]).
    apply Forall_nil_2. }
  assert (Hbad : ¬ Forall alnum_code (char_codes "Test@123")).
  { intros Hall. rewrite Forall_forall in Hall.
    assert (H64 : alnum_code 64).
    { apply Hall.
      change (char_codes "Test@123")
        with [84; 101; 115; 116; 64; 49; 50; 51]%nat.
      do 4 apply list_elem_of_further. apply list_elem_of_here. }
    unfold alnum_code in H64. lia. }
  split; [exact Hok|].
  split; [exact (proj1 (validateInput_spec "Test123") Hok)|].
  split; [exact Hbad|].
  exact (proj2 (validateInput_spec "Test@123") Hbad).
Defined.

(** With [NODE_ENV] unset, two calls write two lines. *)
Lemma logger_writes_elsewhere_witness :
  (None : option string) ≠ Some "production" ∧
  ∃ lines,
    Logger.run None
      [Logger.mkCall Logger.log "t0" "started";
       Logger.mkCall Logger.error "t1" "failed"] [] = [] ++ lines ∧
    length lines = 2%nat.
Proof.
  split; [discriminate|].
  destruct (logger_writes_elsewhere None
              [Logger.mkCall Logger.log "t0" "started";
               Logger.mkCall Logger.error "t1" "failed"] [])
    as (lines & Hrun & Hlen & _); [discriminate|].
  exists lines. split; [exact Hrun | exact Hlen].
Defined.

Lemma bug_test_detects_witness :
  Asana.str_in "promo-42"
    ":octagonal_sign: STOP {campaign.adTitle} - {campaign.pid}" = false ∧
  Asana.bug_test (Asana.generate_asana_task_content (λ _, "<p></p>"))
    (Asana.mkCampaign "Summer sale" "promo-42") = false ∧
  Asana.bug_test (Asana.generate_asana_task_content_fixed (λ _, "<p></p>"))
    (Asana.mkCampaign "Summer sale" "promo-42") = true.
Proof.
  split; [reflexivity|].
  apply (bug_test_detects (λ _, "<p></p>")
           (Asana.mkCampaign "Summer sale" "promo-42")).
  reflexivity.
Defined.
